(** * dispatch-queue: a shallow embedding of [src/index.js]

    The development models the [SimpleQueue] class of [src/index.js]:
    the in-memory buffer [data], the overflow policy of [addItem], the
    snapshot persistence ([loadData] / [saveData]), the single-flight
    processing loop [processQueue] with its retry scheduler, and the sink
    registration functions.

    JavaScript is single threaded.  A call of a method runs to completion
    (or to its first [await]); what happens between two such runs is
    chosen by the environment: a caller invokes a method, an awaited
    delivery settles, a [setTimeout] callback fires, the [setInterval]
    callback fires, time passes.  The model is therefore a labelled
    transition system: [exec a w] runs action [a] on world [w]. *)

From Stdlib Require Import ZArith Lia.
From stdpp Require Import base option list strings gmap.

(** ** Values and the heap *)

(** Payload data: what a JSON document can hold.  Numbers are integers. *)
#[warnings="-register-all"]
Inductive json :=
  | JNull
  | JBool (b : bool)
  | JNum (n : Z)
  | JStr (s : string)
  | JArr (elements : list json)
  | JObj (members : list (string * json)).

(** Items are JavaScript objects: they have an identity (a location in the
    heap) and are mutated in place by the engine ([item._retries = ...]).
    An object is its payload properties plus the engine-managed
    [_retries] property, which is absent ([None]) on an object the engine
    never touched.  The counter is only ever written by the engine or read
    back from a snapshot, and is a natural number. *)
Abbreviation loc := nat.

Record obj := Obj {
  fields : list (string * json);
  _retries : option nat
}.

Definition empty_obj : obj := Obj [] None.

(** A JavaScript value as a caller can pass it to [addItem]. *)
Inductive value :=
  | VUndefined
  | VNull
  | VBool (b : bool)
  | VNum (n : Z)
  | VStr (s : string)
  | VObj (l : loc).

Inductive error :=
  | TypeError (msg : string)
  | Error (msg : string)
  | HandlerFault.

(** How a call ends.  A plain method returns or throws.  An [async]
    method always hands back a promise: [Normal] then means that the
    promise was not rejected by the code that ran inside the call, and
    [Rejects] that the body threw before its first [await], so that the
    promise is already rejected when the caller receives it. *)
Inductive outcome :=
  | Normal (v : value)
  | Throws (e : error)
  | Rejects (e : error).

(** [item._retries || 0] *)
Definition or0 (r : option nat) : nat := default 0 r.

Definition deref (h : list obj) (l : loc) : obj := default empty_obj (h !! l).

(** [{ ...item, _retries: item._retries || 0 }] *)
Definition with_default_retries (item : obj) : obj :=
  Obj (fields item) (Some (or0 (_retries item))).

(** [item._retries = n] on the object at [l]. *)
Definition write_retries (n : nat) (o : obj) : obj := Obj (fields o) (Some n).

(** ** The sinks *)

(** The synchronous part of a handler call [handler(item, name)]: it
    throws, or it returns something that [Promise.resolve] turns into a
    promise.  A handler is its behaviour: what its [k]-th call overall
    does on a given item.  Handlers that call back into the queue are not
    modelled. *)
Inductive call_result := SyncThrow | ReturnsPromise.

Definition fn := nat → loc → call_result.

Inductive callback :=
  | NotAFunction (v : value)
  | Function (f : fn).

(** ** The file system *)

(** The content of a file, seen through [JSON.parse]: text that is the
    [JSON.stringify] image of an array of records is represented by that
    array ([JSON.parse] inverts [JSON.stringify] on JSON data); a record
    may lack the [_retries] key.  [Malformed] is text on which the [try]
    block of [loadData] throws: [JSON.parse] rejects it, or the document
    is not an array ([parsed.map] is not a function) or has a [null]
    element.  [Unreadable] is a path on which [readFileSync] throws.
    Arrays with elements that are neither records nor [null] are not
    modelled. *)
Inductive file :=
  | Unreadable
  | Malformed (raw : string)
  | Snapshot (records : list obj).

Record filesystem := Fs {
  dirs : gset string;
  files : gmap string file;
  (** whether [writeFileSync] succeeds (permissions, free space, ...) *)
  writable : bool
}.

(** [path.join(dir, file)], without normalisation of the path. *)
Definition path_join (dir f : string) : string := dir +:+ "/" +:+ f.

(** ** The queue instance *)

Definition MAX_RETRIES : nat := 5.

Record SimpleQueue := Queue {
  name : string;
  _uuid : string;
  data : list loc;
  handler : option fn;
  webhookUrl : option string;
  webhookMethod : string;
  webhookApiKey : option string;
  (** [eventEmitter]: the listener on ['itemAdded'].  The only listener the
      class itself installs is the one of [registerHandler]; subscribers
      from outside the class are not modelled. *)
  itemAddedListener : option fn;
  persistenceInterval : Z;
  persistenceDirectory : string;
  persistenceFilename : string;
  (** [null], or the running [setInterval] with its period *)
  persistenceTimer : option Z;
  maxSize : Z;
  discardedItems : list value;
  processing : bool
}.

(** What the outside can observe of a run. *)
Inductive via := ViaListener | ViaLoop.

Inductive obs :=
  | HandlerCalled (v : via) (item : loc)
  | WebhookRequested (item : loc) (method url : string) (key : option string)
      (body : option (list (string * json)))
  | RetryScheduled (item : loc) (delay : nat)
  | MaxRetriesExceeded (item : loc)
  | Emitted (event : string) (v : value)
  | ErrorLogged (msg : string).

(** A pending [setTimeout] of the retry scheduler: its callback closes
    over [item]. *)
Record timer := Timer { due : nat; t_item : loc }.

(** The processing loop suspended at its [await]: the locals [item] and
    [retries] of the iteration in flight. *)
Record flight := Flight { f_item : loc; f_retries : nat }.

Record world := World {
  heap : list obj;
  queue : SimpleQueue;
  disk : filesystem;
  awaiting : option flight;
  (** promises of the ['itemAdded'] listener that have not settled *)
  listening : list loc;
  timeouts : list timer;
  clock : nat;
  (** number of handler calls so far *)
  calls : nat;
  trace : list obs
}.

(** *** Field updates *)

Definition set_data (d : list loc) (q : SimpleQueue) : SimpleQueue :=
  Queue (name q) (_uuid q) d (handler q) (webhookUrl q) (webhookMethod q)
    (webhookApiKey q) (itemAddedListener q) (persistenceInterval q)
    (persistenceDirectory q) (persistenceFilename q) (persistenceTimer q)
    (maxSize q) (discardedItems q) (processing q).

Definition set_processing (b : bool) (q : SimpleQueue) : SimpleQueue :=
  Queue (name q) (_uuid q) (data q) (handler q) (webhookUrl q) (webhookMethod q)
    (webhookApiKey q) (itemAddedListener q) (persistenceInterval q)
    (persistenceDirectory q) (persistenceFilename q) (persistenceTimer q)
    (maxSize q) (discardedItems q) b.

Definition set_discardedItems (d : list value) (q : SimpleQueue) : SimpleQueue :=
  Queue (name q) (_uuid q) (data q) (handler q) (webhookUrl q) (webhookMethod q)
    (webhookApiKey q) (itemAddedListener q) (persistenceInterval q)
    (persistenceDirectory q) (persistenceFilename q) (persistenceTimer q)
    (maxSize q) d (processing q).

Definition set_persistenceTimer (t : option Z) (q : SimpleQueue) : SimpleQueue :=
  Queue (name q) (_uuid q) (data q) (handler q) (webhookUrl q) (webhookMethod q)
    (webhookApiKey q) (itemAddedListener q) (persistenceInterval q)
    (persistenceDirectory q) (persistenceFilename q) t
    (maxSize q) (discardedItems q) (processing q).

Definition set_itemAddedListener (f : option fn) (q : SimpleQueue) : SimpleQueue :=
  Queue (name q) (_uuid q) (data q) (handler q) (webhookUrl q) (webhookMethod q)
    (webhookApiKey q) f (persistenceInterval q)
    (persistenceDirectory q) (persistenceFilename q) (persistenceTimer q)
    (maxSize q) (discardedItems q) (processing q).

Definition set_sink (h : option fn) (url : option string) (m : string)
    (key : option string) (q : SimpleQueue) : SimpleQueue :=
  Queue (name q) (_uuid q) (data q) h url m key (itemAddedListener q)
    (persistenceInterval q) (persistenceDirectory q) (persistenceFilename q)
    (persistenceTimer q) (maxSize q) (discardedItems q) (processing q).

Definition on_queue (f : SimpleQueue → SimpleQueue) (w : world) : world :=
  World (heap w) (f (queue w)) (disk w) (awaiting w) (listening w) (timeouts w)
    (clock w) (calls w) (trace w).

Definition set_heap (h : list obj) (w : world) : world :=
  World h (queue w) (disk w) (awaiting w) (listening w) (timeouts w)
    (clock w) (calls w) (trace w).

Definition set_disk (d : filesystem) (w : world) : world :=
  World (heap w) (queue w) d (awaiting w) (listening w) (timeouts w)
    (clock w) (calls w) (trace w).

Definition set_awaiting (a : option flight) (w : world) : world :=
  World (heap w) (queue w) (disk w) a (listening w) (timeouts w)
    (clock w) (calls w) (trace w).

Definition set_listening (l : list loc) (w : world) : world :=
  World (heap w) (queue w) (disk w) (awaiting w) l (timeouts w)
    (clock w) (calls w) (trace w).

Definition set_timeouts (t : list timer) (w : world) : world :=
  World (heap w) (queue w) (disk w) (awaiting w) (listening w) t
    (clock w) (calls w) (trace w).

Definition set_clock (c : nat) (w : world) : world :=
  World (heap w) (queue w) (disk w) (awaiting w) (listening w) (timeouts w)
    c (calls w) (trace w).

Definition count_call (w : world) : world :=
  World (heap w) (queue w) (disk w) (awaiting w) (listening w) (timeouts w)
    (clock w) (S (calls w)) (trace w).

Definition emit (o : obs) (w : world) : world :=
  World (heap w) (queue w) (disk w) (awaiting w) (listening w) (timeouts w)
    (clock w) (calls w) (trace w ++ [o]).

(** JavaScript truthiness of [this.webhookUrl]: [null] and the empty
    string are falsy. *)
Definition truthy (s : option string) : bool :=
  match s with
  | Some u => negb (String.eqb u "")
  | None => false
  end.

(** ** Persistence *)

(** [this.data.map(item => ({ ...item, _retries: item._retries || 0 }))] *)
Definition serializable (h : list obj) (d : list loc) : list obj :=
  (λ l, with_default_retries (deref h l)) <$> d.

Definition saveData (w : world) : world :=
  let q := queue w in
  let fs := disk w in
  if writable fs then
    set_disk (Fs (dirs fs)
                 (<[persistenceFilename q := Snapshot (serializable (heap w) (data q))]>
                    (files fs))
                 (writable fs)) w
  else
    emit (ErrorLogged ("Error saving data for queue " +:+ name q)) w.

(** [loadData]: the records of the snapshot become fresh objects, at the
    end of the heap, in the order of the file. *)
Definition loadData (w : world) : world :=
  let q := queue w in
  match files (disk w) !! persistenceFilename q with
  | Some (Snapshot parsed) =>
      let fresh := seq (length (heap w)) (length parsed) in
      let w1 := set_heap (heap w ++ (with_default_retries <$> parsed)) w in
      let w2 := on_queue (set_data fresh) w1 in
      if ((0 <? maxSize q) && (maxSize q <? Z.of_nat (length fresh)))%Z
      then on_queue (set_data (take (Z.to_nat (maxSize q)) fresh)) w2
      else w2
  | Some _ => on_queue (set_data []) w
  | None => on_queue (set_data []) w
  end.

Definition initializePersistence (w : world) : world :=
  let q := queue w in
  let fs := disk w in
  let w1 :=
    if decide (persistenceDirectory q ∈ dirs fs) then w
    else set_disk (Fs ({[persistenceDirectory q]} ∪ dirs fs) (files fs) (writable fs)) w in
  let w2 := loadData w1 in
  if (0 <? persistenceInterval q)%Z
  then on_queue (set_persistenceTimer (Some (persistenceInterval q))) w2
  else w2.

(** The assignments of the constructor, followed by
    [this.initializePersistence()]. *)
Definition blank_world (uuid : string) (h : list obj) (fs : filesystem)
    (nm : string) (interval : Z) (dir : string) (max : Z) : world :=
  let q := Queue nm uuid [] None None "POST" None None interval dir
             (path_join dir (nm +:+ ".json")) None max [] false in
  World h q fs None [] [] 0 0 [].

Definition initial_world (uuid : string) (h : list obj) (fs : filesystem)
    (nm : string) (interval : Z) (dir : string) (max : Z) : world :=
  initializePersistence (blank_world uuid h fs nm interval dir max).

(** [new SimpleQueue(name, persistenceInterval, persistenceDirectory,
    maxSize)] in an environment made of a heap and a file system.  The
    identifier [uuidv4()] is supplied by the environment. *)
Definition constructor (uuid : string) (h : list obj) (fs : filesystem)
    (nm : string) (interval : Z) (dir : string) (max : Z) : error + world :=
  if String.eqb nm "" then inl (Error "Queue name must be a non-empty string.")
  else if (interval <? 0)%Z
  then inl (TypeError "Persistence interval must be a non-negative number.")
  else if (max <? 0)%Z
  then inl (TypeError "Max size must be a non-negative number.")
  else inr (initial_world uuid h fs nm interval dir max).

(** ** The retry scheduler and the processing loop *)

(** The failure branch of [processQueue] (the same code stands in the
    webhook branch and in the [catch] block). *)
Definition on_failure (item : loc) (retries : nat) (w : world) : world :=
  if retries <? MAX_RETRIES then
    let w1 := set_heap (alter (write_retries (retries + 1)) item (heap w)) w in
    let delay := 2 ^ retries * 100 in
    emit (RetryScheduled item delay)
      (set_timeouts (timeouts w1 ++ [Timer (clock w1 + delay) item]) w1)
  else
    emit (MaxRetriesExceeded item) w.

(** The synchronous start of [triggerWebhook(item)]: the request that is
    handed to [axios]. *)
Definition webhook_request (item : loc) (w : world) : obs :=
  let q := queue w in
  WebhookRequested item (webhookMethod q) (default "" (webhookUrl q))
    (webhookApiKey q)
    (if String.eqb (webhookMethod q) "POST"
     then Some (fields (deref (heap w) item)) else None).

(** The [while (this.data.length > 0)] loop, run until it suspends at an
    [await] or finds the buffer empty.  [d] is [this.data] on entry of
    the iteration; [getItem(true)] shifts it.  An iteration goes on to the
    next one without suspending when the handler throws synchronously, and
    when neither sink is set any more. *)
Fixpoint process_loop (d : list loc) (w : world) : world :=
  match d with
  | [] => on_queue (set_processing false) (on_queue (set_data []) w)
  | item :: rest =>
      let w0 := on_queue (set_data rest) w in
      let retries := or0 (_retries (deref (heap w0) item)) in
      match handler (queue w0) with
      | Some h =>
          let w1 := count_call (emit (HandlerCalled ViaLoop item) w0) in
          match h (calls w0) item with
          | SyncThrow => process_loop rest (on_failure item retries w1)
          | ReturnsPromise => set_awaiting (Some (Flight item retries)) w1
          end
      | None =>
          if truthy (webhookUrl (queue w0)) then
            set_awaiting (Some (Flight item retries))
              (emit (webhook_request item w0) w0)
          else process_loop rest w0
      end
  end.

Definition processQueue (w : world) : world :=
  if processing (queue w) then w
  else
    let w1 := on_queue (set_processing true) w in
    if negb (bool_decide (is_Some (handler (queue w1))))
       && negb (truthy (webhookUrl (queue w1)))
    then on_queue (set_processing false) w1
    else process_loop (data (queue w1)) w1.

(** The loop resumes after its [await]: the delivery in flight has
    settled, successfully or not. *)
Definition resume (ok : bool) (w : world) : option world :=
  match awaiting w with
  | Some f =>
      let w1 := set_awaiting None w in
      let w2 := if ok then w1 else on_failure (f_item f) (f_retries f) w1 in
      Some (process_loop (data (queue w2)) w2)
  | None => None
  end.

(** The callback of a retry timer:
    [this.data.unshift(item); this.processQueue()]. *)
Definition fire (i : nat) (w : world) : option world :=
  match timeouts w !! i with
  | Some t =>
      if due t <=? clock w then
        let w1 := set_timeouts (delete i (timeouts w)) w in
        Some (processQueue (on_queue (λ q, set_data (t_item t :: data q) q) w1))
      else None
  | None => None
  end.

(** ** The public methods *)

Definition getItem (shift : bool) (w : world) : world * value :=
  match data (queue w) with
  | [] => (w, VUndefined)
  | item :: rest =>
      (if shift then on_queue (set_data rest) w else w, VObj item)
  end.

Definition getLength (w : world) : nat := length (data (queue w)).

Definition is_full (q : SimpleQueue) : bool :=
  ((0 <? maxSize q) && (maxSize q <=? Z.of_nat (length (data q))))%Z.

(** [addItem] is [async] and has no [await]: its body runs within the
    call and its errors are rejections of the promise it returns.  The
    body of a class is strict code, so [item._retries = 0] throws a
    [TypeError] on [null] and on a primitive.  The listener on
    ['itemAdded'] runs inside [emit]: [handler(item, this.name)] is
    evaluated before [Promise.resolve] and [.catch] get hold of anything,
    so an exception thrown by the handler leaves [emit] and [addItem]. *)
Definition addItem (item : value) (w : world) : world * outcome :=
  match item with
  | VUndefined => (w, Rejects (TypeError "Cannot add undefined to the queue."))
  | _ =>
      if is_full (queue w) then
        (on_queue (λ q, set_discardedItems (discardedItems q ++ [item]) q)
           (emit (Emitted "discarded" item) w),
         Normal VUndefined)
      else
        match item with
        | VObj l =>
            let w1 := set_heap (alter (write_retries 0) l (heap w)) w in
            let w2 := on_queue (λ q, set_data (data q ++ [l]) q) w1 in
            let w3 := emit (Emitted "itemAdded" item) w2 in
            match itemAddedListener (queue w3) with
            | Some h =>
                let w4 := count_call (emit (HandlerCalled ViaListener l) w3) in
                match h (calls w3) l with
                | SyncThrow => (w4, Rejects HandlerFault)
                | ReturnsPromise =>
                    (processQueue (saveData (set_listening (listening w4 ++ [l]) w4)),
                     Normal VUndefined)
                end
            | None => (processQueue (saveData w3), Normal VUndefined)
            end
        | VNull =>
            (w, Rejects (TypeError "Cannot set properties of null (setting '_retries')"))
        | _ =>
            (w, Rejects (TypeError "Cannot create property '_retries' on a primitive"))
        end
  end.

(** The promise made by the ['itemAdded'] listener settles; a rejection
    goes to [console.error]. *)
Definition listener_settles (i : nat) (ok : bool) (w : world) : option world :=
  match listening w !! i with
  | Some _ =>
      let w1 := set_listening (delete i (listening w)) w in
      Some (if ok then w1 else emit (ErrorLogged "handler rejected") w1)
  | None => None
  end.

Definition registerHandler (cb : callback) (w : world) : world * outcome :=
  match cb with
  | NotAFunction _ => (w, Throws (TypeError "Handler must be a function."))
  | Function h =>
      if truthy (webhookUrl (queue w)) then
        (w, Throws (Error "Cannot register a handler when a webhook is already registered."))
      else
        let w1 := on_queue (λ q, set_sink (Some h) None (webhookMethod q) None q) w in
        let w2 := on_queue (set_itemAddedListener (Some h)) w1 in
        (processQueue w2, Normal VUndefined)
  end.

Definition upper_ascii (c : Ascii.ascii) : Ascii.ascii :=
  let n := Ascii.nat_of_ascii c in
  if (97 <=? n) && (n <=? 122) then Ascii.ascii_of_nat (n - 32) else c.

Fixpoint toUpperCase (s : string) : string :=
  match s with
  | EmptyString => EmptyString
  | String c r => String (upper_ascii c) (toUpperCase r)
  end.

(** [registerWebhook] is [async]: its [throw]s reject the promise. *)
Definition registerWebhook (url apiKey : value) (method : string) (w : world)
    : world * outcome :=
  match url, apiKey with
  | VStr u, VStr k =>
      let m := toUpperCase method in
      if negb (String.eqb m "GET" || String.eqb m "POST") then
        (w, Rejects (TypeError "Invalid HTTP method."))
      else if bool_decide (is_Some (handler (queue w))) then
        (w, Rejects (Error "Cannot register a webhook when a handler is already registered."))
      else
        (processQueue (on_queue (set_sink None (Some u) m (Some k)) w),
         Normal VUndefined)
  | _, _ => (w, Rejects (TypeError "Webhook URL and API key must be strings."))
  end.

Definition stopPersistence (w : world) : world :=
  on_queue (set_persistenceTimer None) w.

Definition drain (w : world) : world :=
  stopPersistence (saveData (on_queue (set_data []) w)).

Definition toArray (w : world) : list loc := data (queue w).

Definition destroy (w : world) : world :=
  on_queue (set_data [])
    (on_queue (set_itemAddedListener None) (stopPersistence w)).

Definition getMaxSize (w : world) : Z := maxSize (queue w).
Definition getDiscardedItems (w : world) : list value := discardedItems (queue w).
Definition getUUID (w : world) : string := _uuid (queue w).

(** ** The transition system *)

Inductive action :=
  | AddItem (item : value)
  | GetItem (shift : bool)
  | RegisterHandler (cb : callback)
  | RegisterWebhook (url apiKey : value) (method : string)
  | Drain
  | StopPersistence
  | Destroy
  (** the awaited delivery settles *)
  | Settle (ok : bool)
  (** a promise of the listener settles *)
  | ListenerSettle (i : nat) (ok : bool)
  (** the callback of the [i]-th pending retry timer runs *)
  | Fire (i : nat)
  (** the [setInterval] callback runs *)
  | PersistTick
  (** time passes *)
  | Advance (dt : nat).

(** [exec a w] is [None] when the environment cannot do [a] in [w]:
    nothing is awaited, the timer does not exist or is not due. *)
Definition exec (a : action) (w : world) : option world :=
  match a with
  | AddItem item => Some (addItem item w).1
  | GetItem shift => Some (getItem shift w).1
  | RegisterHandler cb => Some (registerHandler cb w).1
  | RegisterWebhook url key m => Some (registerWebhook url key m w).1
  | Drain => Some (drain w)
  | StopPersistence => Some (stopPersistence w)
  | Destroy => Some (destroy w)
  | Settle ok => resume ok w
  | ListenerSettle i ok => listener_settles i ok w
  | Fire i => fire i w
  | PersistTick =>
      match persistenceTimer (queue w) with
      | Some _ => Some (saveData w)
      | None => None
      end
  | Advance dt => Some (set_clock (clock w + dt) w)
  end.

Fixpoint run (acts : list action) (w : world) : option world :=
  match acts with
  | [] => Some w
  | a :: rest =>
      match exec a w with
      | Some w' => run rest w'
      | None => None
      end
  end.

Definition valid_method (method : string) : bool :=
  String.eqb (toUpperCase method) "GET" || String.eqb (toUpperCase method) "POST".

(** ** Reading a run *)

(** A delivery attempt of the processing loop on [A]: the loop calls the
    handler, or sends the webhook request. *)
Definition is_attempt (A : loc) (o : obs) : bool :=
  match o with
  | HandlerCalled ViaLoop item => Nat.eqb item A
  | WebhookRequested item _ _ _ _ => Nat.eqb item A
  | _ => false
  end.

Definition attempts (A : loc) (tr : list obs) : nat :=
  length (List.filter (is_attempt A) tr).

(** The delays of the retries scheduled for [A], in order. *)
Definition delay_of (A : loc) (o : obs) : option nat :=
  match o with
  | RetryScheduled item d => if Nat.eqb item A then Some d else None
  | _ => None
  end.

Definition delays (A : loc) (tr : list obs) : list nat := omap (delay_of A) tr.

Definition is_drop (A : loc) (o : obs) : bool :=
  match o with
  | MaxRetriesExceeded item => Nat.eqb item A
  | _ => false
  end.

Definition dropped (A : loc) (tr : list obs) : bool := existsb (is_drop A) tr.

(** The calls of the handler on [A], with their origin. *)
Definition call_of (A : loc) (o : obs) : option via :=
  match o with
  | HandlerCalled v item => if Nat.eqb item A then Some v else None
  | _ => None
  end.

Definition handler_calls (A : loc) (tr : list obs) : list via := omap (call_of A) tr.

(** The backoff delays as the specification lists them, to compare with
    the [2 ^ retries * 100] of [on_failure]. *)
Definition backoffs : list nat := [100; 200; 400; 800; 1600].

(** Where an item is: how often in a buffer, whether in flight, how many
    retry timers hold it. *)
Definition occ (A : loc) (d : list loc) : nat := count_occ Nat.eq_dec d A.

Definition timers_of (A : loc) (w : world) : nat :=
  count_occ Nat.eq_dec (t_item <$> timeouts w) A.

Definition in_flight (A : loc) (w : world) : Prop :=
  ∃ r, awaiting w = Some (Flight A r).

Definition sink_ok (w : world) : Prop :=
  is_Some (handler (queue w)) ∨ truthy (webhookUrl (queue w)) = true.

(** Single flight: a suspended loop holds the [processing] flag. *)
Definition single_flight (w : world) : Prop :=
  is_Some (awaiting w) → processing (queue w) = true.

(** ** The life of one item *)

(** Where the engine holds item [A], given the buffer [d], and what the
    run has shown of it so far.  [k] is the number of delivery attempts
    the loop has made on [A]. *)
Inductive retry_stage (A : loc) (d : list loc) (w : world) : Prop :=
  | Buffered (k : nat) :
      attempts A (trace w) = k →
      occ A d = 1 → ¬ in_flight A w → timers_of A w = 0 →
      _retries (deref (heap w) A) = Some k → k ≤ 5 →
      delays A (trace w) = take k backoffs →
      dropped A (trace w) = false →
      retry_stage A d w
  | InFlight (r : nat) :
      occ A d = 0 → awaiting w = Some (Flight A r) → timers_of A w = 0 →
      attempts A (trace w) = S r → r ≤ 5 →
      delays A (trace w) = take r backoffs →
      dropped A (trace w) = false →
      retry_stage A d w
  | Backoff (k : nat) :
      attempts A (trace w) = k →
      occ A d = 0 → ¬ in_flight A w → timers_of A w = 1 →
      _retries (deref (heap w) A) = Some k → 1 ≤ k → k ≤ 5 →
      delays A (trace w) = take k backoffs →
      dropped A (trace w) = false →
      retry_stage A d w
  | Dropped :
      occ A d = 0 → ¬ in_flight A w → timers_of A w = 0 →
      attempts A (trace w) = 6 →
      delays A (trace w) = backoffs →
      dropped A (trace w) = true →
      retry_stage A d w.

Definition retry_inv (A : loc) (w : world) : Prop :=
  sink_ok w ∧ single_flight w
  ∧ A < length (heap w)
  ∧ (VObj A ∉ discardedItems (queue w))
  ∧ retry_stage A (data (queue w)) w.

(** The environment of an item whose delivery always fails: the caller
    does not submit the same object again, does not take items out by
    hand ([getItem(true)], [drain], [destroy]) and leaves the sink as it
    is; a delivery of [A] never settles with success. *)
Definition failing_env (A : loc) (w : world) (a : action) : Prop :=
  match a with
  | AddItem item => item ≠ VObj A
  | GetItem shift => shift = false
  | Settle ok => in_flight A w → ok = false
  | RegisterHandler _ | RegisterWebhook _ _ _ | Drain | Destroy => False
  | _ => True
  end.

(** Runs whose actions are all allowed by [P]. *)
Inductive runs (P : world → action → Prop) : world → list action → world → Prop :=
  | runs_nil w : runs P w [] w
  | runs_cons w a w' acts w'' :
      P w a → exec a w = Some w' → runs P w' acts w'' →
      runs P w (a :: acts) w''.

(** The engine has not seen [A] yet. *)
Definition unseen (A : loc) (w : world) : Prop :=
  occ A (data (queue w)) = 0 ∧ ¬ in_flight A w ∧ timers_of A w = 0
  ∧ attempts A (trace w) = 0 ∧ delays A (trace w) = []
  ∧ dropped A (trace w) = false
  ∧ VObj A ∉ discardedItems (queue w).

(** [A] is in none of the places where the engine keeps items. *)
Definition nowhere (A : loc) (w : world) : Prop :=
  occ A (data (queue w)) = 0 ∧ ¬ in_flight A w ∧ timers_of A w = 0.

(** ** Order of delivery *)

(** Which of [A] and [B] the loop attempts first in a trace. *)
Fixpoint first_attempt (A B : loc) (tr : list obs) : option loc :=
  match tr with
  | [] => None
  | o :: tr =>
      if is_attempt A o then Some A
      else if is_attempt B o then Some B
      else first_attempt A B tr
  end.

(** In buffer [d] an occurrence of [A] stands before every occurrence of
    [B], and [B] waits behind it. *)
Definition ahead (A B : loc) (d : list loc) : Prop :=
  ∃ d1 d2, d = d1 ++ A :: d2 ∧ (B ∉ d1) ∧ B ∈ d2.

(** Since the trace was [tr0] the loop has attempted [A], and not [B]
    before it. *)
Definition served (A B : loc) (tr0 : list obs) (w : world) : Prop :=
  ∃ suffix, trace w = tr0 ++ suffix ∧ first_attempt A B suffix = Some A.

(** Since the trace was [tr0] the loop has attempted neither; [A] is
    ahead of [B] in the buffer, and [B] is nowhere else. *)
Definition waiting (A B : loc) (tr0 : list obs) (w : world) : Prop :=
  ∃ suffix, trace w = tr0 ++ suffix
    ∧ first_attempt A B suffix = None
    ∧ sink_ok w ∧ single_flight w
    ∧ ¬ in_flight B w ∧ timers_of B w = 0
    ∧ ahead A B (data (queue w)).

Definition ahead_inv (A B : loc) (tr0 : list obs) (w : world) : Prop :=
  served A B tr0 w ∨ waiting A B tr0 w.

(** The items the loop has attempted, in order. *)
Definition attempt_order (tr : list obs) : list loc :=
  omap (λ o, match o with
             | HandlerCalled ViaLoop item => Some item
             | WebhookRequested item _ _ _ _ => Some item
             | _ => None
             end) tr.

(** The environment in which the order of delivery is stated: callers
    submit and peek, deliveries settle, timers fire, time passes; nobody
    takes items out by hand or changes the sink. *)
Definition engine_env (w : world) (a : action) : Prop :=
  match a with
  | GetItem shift => shift = false
  | RegisterHandler _ | RegisterWebhook _ _ _ | Drain | Destroy => False
  | _ => True
  end.

(** The capacity bound on the buffer. *)
Definition within_capacity (w : world) : Prop :=
  (maxSize (queue w) ≤ 0 ∨ Z.of_nat (length (data (queue w))) ≤ maxSize (queue w))%Z.

(** [addItem] on an object that is accepted, up to the return of the
    listener: counter set, item pushed, notification sent, handler
    called by the listener, its promise pending. *)
Definition accepted (A : loc) (w : world) : world :=
  set_listening (listening w ++ [A])
    (count_call
       (emit (HandlerCalled ViaListener A)
          (emit (Emitted "itemAdded" (VObj A))
             (on_queue (λ q, set_data (data q ++ [A]) q)
                (set_heap (alter (write_retries 0) A (heap w)) w))))).

(** ** The loop is kept going *)

(** An idle loop has left nothing in the buffer. *)
Definition no_stall (w : world) : Prop :=
  processing (queue w) = false → data (queue w) = [].

Definition engine_ok (w : world) : Prop :=
  sink_ok w ∧ single_flight w ∧ no_stall w.

(** The sink is left as it is, and the listener's call of the handler
    returns whenever an object is submitted. *)
Definition kicking_env (w : world) (a : action) : Prop :=
  match a with
  | AddItem (VObj l) =>
      ∀ h, itemAddedListener (queue w) = Some h → h (calls w) l = ReturnsPromise
  | RegisterHandler _ | RegisterWebhook _ _ _ => False
  | _ => True
  end.

(** ** Scenarios *)

Definition demo_heap : list obj :=
  [Obj [("id", JNum 1)] None; Obj [("id", JNum 2)] None; Obj [("id", JNum 3)] None].

Definition demo_fs : filesystem := Fs ∅ ∅ true.

(** [createQueue('jobs', 0, 'queues', max)] on an empty disk. *)
Definition demo_world (max : Z) : world :=
  initial_world "uuid" demo_heap demo_fs "jobs" 0 "queues" max.

Definition demo_webhook : action :=
  RegisterWebhook (VStr "http://sink") (VStr "key") "POST".

Definition always_throws : fn := λ _ _, SyncThrow.
Definition always_returns : fn := λ _ _, ReturnsPromise.

(** A webhook is registered on an unbounded queue; the first object is
    submitted and every delivery fails; each retry timer fires when it is
    due. *)
Definition demo_webhook_world : world := (registerWebhook (VStr "http://sink") (VStr "key") "POST" (demo_world 0)).1.

Definition demo_retry_acts : list action :=
  [Settle false; Advance 100; Fire 0;
   Settle false; Advance 200; Fire 0;
   Settle false; Advance 400; Fire 0;
   Settle false; Advance 800; Fire 0;
   Settle false; Advance 1600; Fire 0;
   Settle false].

Definition demo_retry_end : world :=
  default demo_webhook_world
    (run demo_retry_acts (addItem (VObj 0) demo_webhook_world).1).

(** Capacity 1 and a webhook.  The first object fails and waits for its
    retry; the second is in flight and the third waits in the buffer when
    the retry timer of the first fires. *)
Definition demo_overflow_acts : list action :=
  [demo_webhook; AddItem (VObj 0); Settle false; AddItem (VObj 1);
   AddItem (VObj 2); Advance 100; Fire 0].

Definition demo_before_fire : world :=
  default (demo_world 1)
    (run [demo_webhook; AddItem (VObj 0); Settle false; AddItem (VObj 1);
          AddItem (VObj 2); Advance 100] (demo_world 1)).

Definition demo_after_fire : world :=
  default (demo_world 1) (fire 0 demo_before_fire).

Definition demo_after_settle : world :=
  default demo_after_fire (exec (Settle true) demo_after_fire).

(** A webhook; the first object is in flight when the second is
    submitted; the first fails; 100 time units later its timer fires; then
    the delivery of the second settles. *)
Definition demo_order_submitted : world :=
  default (demo_world 0)
    (run [demo_webhook; AddItem (VObj 0); AddItem (VObj 1)] (demo_world 0)).

Definition demo_order_failed : world :=
  default demo_order_submitted (exec (Settle false) demo_order_submitted).

Definition demo_order_fired : world :=
  default demo_order_failed (run [Advance 100; Fire 0] demo_order_failed).

Definition demo_order_settled : world :=
  default demo_order_fired (exec (Settle true) demo_order_fired).

Definition demo_handler_world (h : fn) : world :=
  (registerHandler (Function h) (demo_world 0)).1.

(** Submitting a sequence of items, and taking [n] items from the head. *)
Definition submit_all (items : list value) (w : world) : world :=
  foldl (λ w item, (addItem item w).1) w items.

Fixpoint take_n (n : nat) (w : world) : world * list value :=
  match n with
  | 0 => (w, [])
  | S n =>
      let r := getItem true w in
      let rs := take_n n r.1 in
      (rs.1, r.2 :: rs.2)
  end.

(** Two objects wait in the buffer of a queue without sink; the process
    is started again on the disk it leaves. *)
Definition demo_saved : world :=
  submit_all [VObj 0; VObj 1] (demo_world 0).

Definition demo_restart : world :=
  blank_world "uuid2" [] (disk (saveData demo_saved)) "jobs" 0 "queues" 0.

Definition demo_empty_url_world : world :=
  (registerWebhook (VStr "") (VStr "key") "POST" (demo_world 0)).1.

(** No sink is configured: neither a handler (nor its listener) nor a
    webhook with a usable URL. *)
Definition no_sink (w : world) : Prop :=
  handler (queue w) = None ∧ truthy (webhookUrl (queue w)) = false
  ∧ itemAddedListener (queue w) = None.

(** ** What a run leaves as it is *)

(** The settings of an instance: everything but the buffer and the
    [processing] flag. *)
Definition settings (q : SimpleQueue) : SimpleQueue :=
  set_processing false (set_data [] q).

(** A step of the engine itself (the loop, the retry scheduler): the
    settings, the disk, the clock and the payload of every object are
    left alone. *)
Record quiet (w w' : world) : Prop := Quiet {
  quiet_settings : settings (queue w') = settings (queue w);
  quiet_disk : disk w' = disk w;
  quiet_clock : clock w' = clock w;
  quiet_listening : listening w' = listening w;
  quiet_length : length (heap w') = length (heap w);
  quiet_fields : ∀ l, fields (deref (heap w') l) = fields (deref (heap w) l);
  quiet_trace : trace w `prefix_of` trace w'
}.

(** What any step leaves alone, or changes in one direction only. *)
Record evolves (w w' : world) : Prop := Evolves {
  ev_name : name (queue w') = name (queue w);
  ev_uuid : _uuid (queue w') = _uuid (queue w);
  ev_maxSize : maxSize (queue w') = maxSize (queue w);
  ev_interval : persistenceInterval (queue w') = persistenceInterval (queue w);
  ev_directory : persistenceDirectory (queue w') = persistenceDirectory (queue w);
  ev_filename : persistenceFilename (queue w') = persistenceFilename (queue w);
  ev_length : length (heap w') = length (heap w);
  ev_fields : ∀ l, fields (deref (heap w') l) = fields (deref (heap w) l);
  ev_discarded : discardedItems (queue w) `prefix_of` discardedItems (queue w');
  ev_dirs : dirs (disk w') = dirs (disk w);
  ev_writable : writable (disk w') = writable (disk w);
  ev_files : ∀ p, p ≠ persistenceFilename (queue w) →
               files (disk w') !! p = files (disk w) !! p;
  ev_timer : persistenceTimer (queue w) = None →
             persistenceTimer (queue w') = None;
  ev_handler : is_Some (handler (queue w)) → is_Some (handler (queue w'));
  ev_clock : clock w ≤ clock w';
  ev_trace : trace w `prefix_of` trace w'
}.

(** The sink settings as the registration functions leave them. *)
Record sink_wf (q : SimpleQueue) : Prop := SinkWf {
  wf_exclusive : is_Some (handler q) → webhookUrl q = None ∧ webhookApiKey q = None;
  wf_listener : ∀ h, itemAddedListener q = Some h → handler q = Some h;
  wf_key : is_Some (webhookUrl q) → is_Some (webhookApiKey q);
  wf_method : webhookMethod q = "GET" ∨ webhookMethod q = "POST"
}.

(** What is expected of an entry of the trace. *)
Definition obs_wf (o : obs) : Prop :=
  match o with
  | WebhookRequested _ m u k b =>
      (m = "GET" ∨ m = "POST") ∧ u ≠ "" ∧ is_Some k
      ∧ (is_Some b ↔ m = "POST")
  | RetryScheduled _ d => d ∈ backoffs
  | _ => True
  end.

(** The [processing] flag is set exactly while the loop is suspended at
    its [await]. *)
Definition loop_flag (w : world) : Prop :=
  processing (queue w) = true ↔ is_Some (awaiting w).

Definition wellformed (w : world) : Prop :=
  loop_flag w ∧ sink_wf (queue w) ∧ Forall obs_wf (trace w).

Definition counters_bounded (h : list obj) : Prop :=
  ∀ l o, h !! l = Some o → or0 (_retries o) ≤ MAX_RETRIES.

(** [createQueue(name, persistenceInterval, persistenceDirectory, maxSize)] *)
Definition createQueue (uuid : string) (h : list obj) (fs : filesystem)
    (nm : string) (interval : Z) (dir : string) (max : Z) : error + world :=
  constructor uuid h fs nm interval dir max.

(** The objects a run submits, in order. *)
Definition submitted (acts : list action) : list loc :=
  omap (λ a, match a with AddItem (VObj l) => Some l | _ => None end) acts.

(** A handler none of whose calls throws synchronously. *)
Definition never_throws (f : fn) : Prop := ∀ k l, f k l = ReturnsPromise.

(** Every delivery succeeds: the sink is left as it is, nobody takes
    items out by hand, and the awaited delivery settles with success. *)
Definition succeeding_env (w : world) (a : action) : Prop :=
  match a with
  | GetItem shift => shift = false
  | Settle ok => ok = true
  | RegisterHandler _ | RegisterWebhook _ _ _ | Drain | Destroy => False
  | _ => True
  end.

(** An unbounded queue with a sink whose calls return, no retry pending. *)
Definition delivering (w : world) : Prop :=
  engine_ok w ∧ maxSize (queue w) = 0%Z ∧ timeouts w = []
  ∧ (∀ f, handler (queue w) = Some f → never_throws f)
  ∧ (∀ f, itemAddedListener (queue w) = Some f → never_throws f).

(** ** Further scenarios *)

(** A snapshot of three records on disk; a queue of capacity 2 is created
    on it. *)
Definition demo_records : list obj :=
  [Obj [("id", JNum 1)] None; Obj [("id", JNum 2)] (Some 3);
   Obj [("id", JNum 3)] None].

Definition demo_snapshot_fs : filesystem :=
  Fs ∅ (<["queues/jobs.json" := Snapshot demo_records]> ∅) true.

Definition demo_small_world : world :=
  blank_world "uuid" [] demo_snapshot_fs "jobs" 0 "queues" 2.

(** The whole life of the first object, from the creation of the queue. *)
Definition demo_life_acts : list action :=
  demo_webhook :: AddItem (VObj 0) :: demo_retry_acts.

(** Two objects are submitted to a webhook queue, both deliveries
    succeed. *)
Definition demo_delivery_acts : list action :=
  [AddItem (VObj 0); AddItem (VObj 1); Settle true; Settle true].

Definition demo_delivered : world :=
  default demo_webhook_world (run demo_delivery_acts demo_webhook_world).

(** Capacity 2: the third object is discarded; the queue is drained and
    destroyed. *)
Definition demo_discard_acts : list action :=
  [AddItem (VObj 0); AddItem (VObj 1); AddItem (VObj 2); Drain; Destroy].

Definition demo_discarded : world :=
  default (demo_world 2) (run demo_discard_acts (demo_world 2)).

(** A queue that saves every 1000 time units, stopped. *)
Definition demo_periodic : world :=
  initial_world "uuid" demo_heap demo_fs "jobs" 1000 "queues" 0.

Definition demo_stopped_acts : list action :=
  [AddItem (VObj 0); Advance 1000; GetItem true].

Definition demo_stopped : world :=
  default demo_periodic (run demo_stopped_acts (stopPersistence demo_periodic)).

(** A handler is registered, the queue destroyed, an object submitted. *)
Definition demo_destroyed : world :=
  default (demo_world 0)
    (run [Destroy; AddItem (VObj 0)] (demo_handler_world always_returns)).

(** The process is started again after [destroy], and after [drain]. *)
Definition demo_restart_destroyed : world :=
  blank_world "uuid2" [] (disk (destroy (saveData demo_saved))) "jobs" 0 "queues" 0.

Definition demo_restart_drained : world :=
  blank_world "uuid2" [] (disk (drain (saveData demo_saved))) "jobs" 0 "queues" 0.

(** * Properties *)

#[global] Arguments addItem : simpl never.
#[global] Arguments processQueue : simpl never.
#[global] Arguments saveData : simpl never.
#[global] Arguments loadData : simpl never.
#[global] Arguments submit_all : simpl never.
#[global] Arguments occ : simpl never.

Ltac break_world w :=
  let q := fresh "q" in
  destruct w as [? q ? ? ? ? ? ? ?]; destruct q; simpl in *.

(** ** Without a sink the processing loop consumes nothing *)

Lemma processQueue_no_sink w :
  handler (queue w) = None → truthy (webhookUrl (queue w)) = false →
  processQueue w = w.
Proof.
  break_world w. intros -> Hurl. unfold processQueue; simpl.
  destruct processing0; [done|]. simpl. by rewrite Hurl.
Qed.

Lemma saveData_queue w : queue (saveData w) = queue w.
Proof. unfold saveData. by destruct (writable (disk w)). Qed.

Lemma saveData_heap w : heap (saveData w) = heap w.
Proof. unfold saveData. by destruct (writable (disk w)). Qed.

Lemma addItem_no_sink w l :
  no_sink w →
  let w' := (addItem (VObj l) w).1 in
  no_sink w' ∧ maxSize (queue w') = maxSize (queue w)
  ∧ (addItem (VObj l) w).2 = Normal VUndefined
  ∧ if is_full (queue w)
    then data (queue w') = data (queue w)
         ∧ discardedItems (queue w') = discardedItems (queue w) ++ [VObj l]
    else data (queue w') = data (queue w) ++ [l]
         ∧ discardedItems (queue w') = discardedItems (queue w).
Proof.
  intros (Hh & Hu & Hl). unfold addItem.
  destruct (is_full (queue w)) eqn:Hfull; cbn -[processQueue saveData].
  - by break_world w.
  - rewrite Hl. rewrite processQueue_no_sink;
      rewrite ?saveData_queue; simpl; try done.
    unfold no_sink. rewrite saveData_queue. by break_world w.
Qed.

Lemma submit_all_snoc items x w :
  submit_all (items ++ [x]) w = (addItem x (submit_all items w)).1.
Proof. unfold submit_all. by rewrite foldl_app. Qed.

(** While there is room, every submitted object goes to the tail. *)
Lemma submit_all_accepts (items : list loc) w :
  no_sink w →
  (maxSize (queue w) = 0
   ∨ Z.of_nat (length (data (queue w)) + length items) ≤ maxSize (queue w))%Z →
  let w' := submit_all (VObj <$> items) w in
  no_sink w' ∧ maxSize (queue w') = maxSize (queue w)
  ∧ data (queue w') = data (queue w) ++ items
  ∧ discardedItems (queue w') = discardedItems (queue w).
Proof.
  induction items as [|x items IH] using rev_ind; intros Hns Hroom.
  - simpl. by rewrite app_nil_r.
  - rewrite fmap_app. change (VObj <$> [x]) with [VObj x].
    rewrite submit_all_snoc. cbv zeta in IH |- *.
    rewrite length_app in Hroom. simpl in Hroom.
    destruct IH as (Hns' & Hmax & Hdata & Hdisc); [done|lia|].
    pose proof (addItem_no_sink (submit_all (VObj <$> items) w) x Hns') as H.
    simpl in H. destruct H as (? & Hm & _ & H).
    assert (is_full (queue (submit_all (VObj <$> items) w)) = false) as Hnf.
    { unfold is_full. rewrite Hmax, Hdata, length_app.
      destruct Hroom as [-> | Hroom]; [done|].
      apply andb_false_iff. right. apply Z.leb_gt. lia. }
    rewrite Hnf in H. destruct H as [Hd Hdi].
    split; [done|]. split; [congruence|]. split; [|congruence].
    rewrite Hd, Hdata. by rewrite app_assoc.
Qed.

Lemma getItem_cons shift w x d :
  data (queue w) = x :: d →
  getItem shift w = (if shift then on_queue (set_data d) w else w, VObj x).
Proof. unfold getItem. by intros ->. Qed.

Lemma getItem_nil shift w :
  data (queue w) = [] → getItem shift w = (w, VUndefined).
Proof. unfold getItem. by intros ->. Qed.

Lemma take_n_data n w :
  n ≤ length (data (queue w)) →
  (take_n n w).2 = VObj <$> take n (data (queue w))
  ∧ data (queue (take_n n w).1) = drop n (data (queue w))
  ∧ discardedItems (queue (take_n n w).1) = discardedItems (queue w).
Proof.
  revert w. induction n as [|n IH]; intros w Hn; [done|].
  destruct (data (queue w)) as [|x d] eqn:Hd; simpl in Hn; [lia|].
  cbn [take_n]. rewrite (getItem_cons true w x d Hd).
  destruct (IH (on_queue (set_data d) w)) as (H1 & H2 & H3).
  { simpl. lia. }
  simpl in *. by rewrite H1, H2, H3.
Qed.

(** C1. FIFO order: on a queue with no sink and [maxSize = 0], after any
    sequence of objects has been submitted with [addItem], the buffer is
    what it was followed by these objects in the order of submission, and
    as many [getItem(true)] calls as the buffer is long return its items
    from the head on: first the ones that were there, then the submitted
    ones in the order of submission.  The buffer is then empty and a
    further [getItem] returns [undefined].  (On a new queue the buffer is
    empty to begin with: the calls return exactly the submitted objects.) *)
Theorem fifo_order (w : world) (items : list loc) :
  no_sink w → maxSize (queue w) = 0%Z →
  let w' := submit_all (VObj <$> items) w in
  let r := take_n (length (data (queue w)) + length items) w' in
  data (queue w') = data (queue w) ++ items
  ∧ r.2 = VObj <$> (data (queue w) ++ items)
  ∧ data (queue r.1) = []
  ∧ (getItem true r.1).2 = VUndefined.
Proof.
  intros Hns Hmax w' r.
  destruct (submit_all_accepts items w Hns) as (_ & _ & Hdata & _); [by left|].
  fold w' in Hdata.
  destruct (take_n_data (length (data (queue w)) + length items) w')
    as (Hr & Hrest & _).
  { by rewrite Hdata, length_app. }
  fold r in Hr, Hrest. rewrite Hdata in Hr, Hrest.
  rewrite <- length_app in Hr, Hrest.
  rewrite firstn_all in Hr. rewrite drop_all in Hrest.
  repeat split; try done. by rewrite getItem_nil.
Qed.

(** ** Overflow: reject the new item, keep the old ones *)

Lemma addItem_full w (item : value) :
  item ≠ VUndefined → is_full (queue w) = true →
  addItem item w =
    (on_queue (λ q, set_discardedItems (discardedItems q ++ [item]) q)
       (emit (Emitted "discarded" item) w),
     Normal VUndefined).
Proof. intros Hne Hfull. unfold addItem. rewrite Hfull. by destruct item. Qed.

(** C5. Overflow: on a queue with no sink, [maxSize = k > 0], an empty
    buffer and an empty discard list, submitting [k] objects and then one
    more leaves the [k] first ones in the buffer, in order, and exactly the
    last one in the discard list; [getItem()] then returns the first
    submitted object and leaves [k - 1] items, and [getItem(false)] returns
    the next one (if any) and removes nothing. *)
Theorem overflow_rejects_new (w : world) (k : nat) (items : list loc) (x : loc) :
  no_sink w → data (queue w) = [] → discardedItems (queue w) = [] →
  maxSize (queue w) = Z.of_nat k → 0 < k → length items = k →
  let w' := submit_all (VObj <$> (items ++ [x])) w in
  let r1 := getItem true w' in
  let r2 := getItem false r1.1 in
  getLength w' = k
  ∧ data (queue w') = items
  ∧ discardedItems (queue w') = [VObj x]
  ∧ Some r1.2 = VObj <$> items !! 0
  ∧ getLength r1.1 = k - 1
  ∧ r2.2 = default VUndefined (VObj <$> items !! 1)
  ∧ r2.1 = r1.1.
Proof.
  intros Hns Hempty Hdisc Hmax Hk Hlen w'.
  destruct (submit_all_accepts items w Hns) as (Hns' & Hmax' & Hdata & Hdisc').
  { right. rewrite Hempty, Hmax. simpl. lia. }
  rewrite Hempty in Hdata. simpl in Hdata. rewrite Hdisc in Hdisc'.
  assert (is_full (queue (submit_all (VObj <$> items) w)) = true) as Hfull.
  { unfold is_full. rewrite Hmax', Hmax, Hdata, Hlen.
    apply andb_true_iff. split; [apply Z.ltb_lt | apply Z.leb_le]; lia. }
  assert (data (queue w') = items ∧ discardedItems (queue w') = [VObj x])
    as [Hd Hx].
  { subst w'. rewrite fmap_app. change (VObj <$> [x]) with [VObj x].
    rewrite submit_all_snoc, addItem_full; [|done..]. simpl.
    by rewrite Hdata, Hdisc'. }
  intros r1 r2. subst r1 r2.
  destruct items as [|a rest]; simpl in Hlen; [lia|].
  rewrite (getItem_cons true w' a rest Hd). simpl.
  unfold getLength. rewrite Hd. simpl.
  repeat split; try done; try lia.
  - by destruct rest.
  - by destruct rest.
Qed.

(** ** Input check of [addItem] *)

(** C10. Only [undefined] is rejected up front.  [addItem(null)] on a
    queue that is not full is rejected with a [TypeError] (raised by the
    assignment of the retry counter) and changes nothing; on a full queue
    it ends normally, with [null] appended to the discard list and the
    buffer untouched. *)
Theorem addItem_null_and_undefined (w : world) :
  (∃ msg, addItem VUndefined w = (w, Rejects (TypeError msg)))
  ∧ if is_full (queue w)
    then (addItem VNull w).2 = Normal VUndefined
         ∧ discardedItems (queue (addItem VNull w).1)
           = discardedItems (queue w) ++ [VNull]
         ∧ data (queue (addItem VNull w).1) = data (queue w)
         ∧ heap (addItem VNull w).1 = heap w
    else ∃ msg, addItem VNull w = (w, Rejects (TypeError msg)).
Proof.
  split; [by eexists|].
  destruct (is_full (queue w)) eqn:Hfull.
  - by rewrite addItem_full.
  - unfold addItem. rewrite Hfull. by eexists.
Qed.

(** ** Registration of the sinks *)

(** C6 (amended).  With a handler registered, [registerWebhook] fails for
    all arguments and changes nothing; being an [async] method it does not
    throw: the promise it returns is already rejected, with the
    configuration error when the arguments are well formed.  With a
    webhook registered under a non-empty URL, [registerHandler] throws in
    the call, for all arguments, and changes nothing. *)
Theorem sink_mutual_exclusion (w1 w2 : world) (h : fn) :
  handler (queue w1) = Some h →
  truthy (webhookUrl (queue w2)) = true →
  (∀ url key method,
     ∃ e, registerWebhook url key method w1 = (w1, Rejects e))
  ∧ (∀ u k method, valid_method method = true →
     registerWebhook (VStr u) (VStr k) method w1 =
       (w1, Rejects (Error
          "Cannot register a webhook when a handler is already registered.")))
  ∧ (∀ cb, ∃ e, registerHandler cb w2 = (w2, Throws e))
  ∧ (∀ f, registerHandler (Function f) w2 =
       (w2, Throws (Error
          "Cannot register a handler when a webhook is already registered."))).
Proof.
  intros Hh Hu. repeat split.
  - intros url key method. unfold registerWebhook.
    destruct url, key; try by eexists.
    destruct (negb _); [by eexists|]. rewrite Hh. by eexists.
  - intros u k method Hm. unfold registerWebhook. fold (valid_method method).
    by rewrite Hm, Hh.
  - intros [v|f]; unfold registerHandler; [by eexists|]. rewrite Hu. by eexists.
  - intros f. unfold registerHandler. by rewrite Hu.
Qed.

(** ** Drain *)

(** C8. [drain()] empties the buffer, writes the empty snapshot (when the
    file system accepts the write; otherwise the failure is logged and the
    disk is as before), and stops the persistence timer.  The discard
    list, the heap, the sinks and the pending retry timers are left as
    they are.  Nothing is required of the buffer before the call. *)
Theorem drain_empties_buffer (w : world) :
  let w' := drain w in
  data (queue w') = []
  ∧ getLength w' = 0
  ∧ persistenceTimer (queue w') = None
  ∧ discardedItems (queue w') = discardedItems (queue w)
  ∧ heap w' = heap w
  ∧ timeouts w' = timeouts w
  ∧ handler (queue w') = handler (queue w)
  ∧ webhookUrl (queue w') = webhookUrl (queue w)
  ∧ (if writable (disk w)
     then files (disk w') !! persistenceFilename (queue w) = Some (Snapshot [])
          ∧ trace w' = trace w
     else disk w' = disk w).
Proof.
  unfold drain, stopPersistence, saveData, getLength. simpl.
  destruct (writable (disk w)) eqn:Hw; simpl; rewrite ?Hw;
    repeat split; try done.
  by rewrite lookup_insert_eq.
Qed.

(** ** Persistence round trip *)

Lemma deref_fresh (h l : list obj) :
  deref (h ++ l) <$> seq (length h) (length l) = l.
Proof.
  apply list_eq; intros i. rewrite list_lookup_fmap.
  destruct (decide (i < length l)) as [Hi|Hi].
  - rewrite lookup_seq_lt by done. simpl. unfold deref.
    rewrite lookup_app_r by lia.
    replace (length h + i - length h) with i by lia.
    destruct (lookup_lt_is_Some_2 l i Hi) as [x Hx]. by rewrite Hx.
  - rewrite lookup_seq_ge by lia. simpl. symmetry.
    apply lookup_ge_None. lia.
Qed.

Lemma serializable_normal h d :
  with_default_retries <$> serializable h d = serializable h d.
Proof.
  unfold serializable. rewrite <- list_fmap_compose.
  by apply list_fmap_ext.
Qed.

(** What [loadData] makes of a snapshot: fresh objects at the end of the
    heap, cut to the capacity. *)
Lemma loadData_snapshot w parsed :
  files (disk w) !! persistenceFilename (queue w) = Some (Snapshot parsed) →
  let n := if ((0 <? maxSize (queue w))
               && (maxSize (queue w) <? Z.of_nat (length parsed)))%Z
           then Z.to_nat (maxSize (queue w)) else length parsed in
  heap (loadData w) = heap w ++ (with_default_retries <$> parsed)
  ∧ data (queue (loadData w)) = seq (length (heap w)) n
  ∧ deref (heap (loadData w)) <$> data (queue (loadData w))
    = take n (with_default_retries <$> parsed)
  ∧ maxSize (queue (loadData w)) = maxSize (queue w).
Proof.
  intros Hfile. unfold loadData. rewrite Hfile. cbv zeta.
  rewrite length_seq.
  pose proof (deref_fresh (heap w) (with_default_retries <$> parsed)) as Hfresh.
  rewrite length_fmap in Hfresh.
  destruct (_ && _)%Z eqn:Hcut; simpl.
  - apply andb_true_iff in Hcut as [_ Hlt%Z.ltb_lt].
    split; [done|]. split; [|split; [|done]].
    + rewrite take_seq. f_equal. lia.
    + by rewrite fmap_take, Hfresh.
  - split; [done|]. split; [done|]. split; [|done].
    rewrite Hfresh, take_ge; [done|]. by rewrite length_fmap.
Qed.

Lemma loadData_no_snapshot w :
  (files (disk w) !! persistenceFilename (queue w) = None
   ∨ files (disk w) !! persistenceFilename (queue w) = Some Unreadable
   ∨ ∃ raw, files (disk w) !! persistenceFilename (queue w)
            = Some (Malformed raw)) →
  loadData w = on_queue (set_data []) w.
Proof.
  unfold loadData. by intros [-> | [-> | [raw ->]]].
Qed.


(** ** Reading traces, counting occurrences *)

Lemma attempts_snoc A tr o :
  attempts A (tr ++ [o]) = attempts A tr + (if is_attempt A o then 1 else 0).
Proof.
  unfold attempts. rewrite List.filter_app, length_app. simpl.
  by destruct (is_attempt A o).
Qed.

Lemma delays_snoc A tr o :
  delays A (tr ++ [o]) = delays A tr ++ option_list (delay_of A o).
Proof. unfold delays. rewrite omap_app. simpl. by destruct (delay_of A o). Qed.

Lemma dropped_snoc A tr o :
  dropped A (tr ++ [o]) = dropped A tr || is_drop A o.
Proof. unfold dropped. rewrite existsb_app. simpl. by rewrite orb_false_r. Qed.

Lemma handler_calls_snoc A tr o :
  handler_calls A (tr ++ [o]) = handler_calls A tr ++ option_list (call_of A o).
Proof. unfold handler_calls. rewrite omap_app. simpl. by destruct (call_of A o). Qed.

Lemma occ_cons_eq A d : occ A (A :: d) = S (occ A d).
Proof. unfold occ. by rewrite count_occ_cons_eq. Qed.

Lemma occ_cons_ne A x d : x ≠ A → occ A (x :: d) = occ A d.
Proof. unfold occ. intros. by rewrite count_occ_cons_neq. Qed.

Lemma occ_snoc_ne A x d : x ≠ A → occ A (d ++ [x]) = occ A d.
Proof.
  unfold occ. intros. rewrite count_occ_app, count_occ_cons_neq by done.
  rewrite count_occ_nil. lia.
Qed.

Lemma count_occ_delete (l : list nat) i x A :
  l !! i = Some x →
  count_occ Nat.eq_dec l A
  = count_occ Nat.eq_dec (delete i l) A + (if decide (x = A) then 1 else 0).
Proof.
  revert i. induction l as [|y l IH]; intros [|i] Hi; simplify_eq/=.
  - destruct (Nat.eq_dec x A), (decide (x = A)); try done; lia.
  - rewrite (IH i Hi). destruct (Nat.eq_dec y A), (decide (x = A)); lia.
Qed.

Lemma fmap_delete_list {X Y} (f : X → Y) (l : list X) i :
  f <$> delete i l = delete i (f <$> l).
Proof.
  revert i. induction l as [|y l IH]; intros [|i]; simpl; try done.
  by rewrite IH.
Qed.

Lemma take_backoffs_step r :
  r < MAX_RETRIES → take r backoffs ++ [2 ^ r * 100] = take (S r) backoffs.
Proof.
  unfold MAX_RETRIES. intros Hr.
  destruct r as [|[|[|[|[|r]]]]]; try done. lia.
Qed.


(** Read what a step added to the trace. *)
Ltac read_trace :=
  rewrite ?attempts_snoc, ?delays_snoc, ?dropped_snoc, ?handler_calls_snoc;
  simpl; rewrite ?Nat.eqb_refl, ?app_nil_r, ?orb_false_r, ?orb_true_r.

Tactic Notation "read_trace" "with" constr(H) :=
  rewrite ?attempts_snoc, ?delays_snoc, ?dropped_snoc, ?handler_calls_snoc;
  simpl; rewrite ?H; simpl; rewrite ?app_nil_r, ?orb_false_r.

(** ** The retry scheduler on one item *)

Lemma deref_alter_eq f h l :
  l < length h → deref (alter f l h) l = f (deref h l).
Proof.
  intros Hl. unfold deref. rewrite list_lookup_alter_eq.
  destruct (lookup_lt_is_Some_2 h l Hl) as [o ->]. done.
Qed.

Lemma deref_alter_ne f h l l' : l ≠ l' → deref (alter f l h) l' = deref h l'.
Proof. intros Hl. unfold deref. by rewrite list_lookup_alter_ne. Qed.

Lemma on_failure_queue item r w : queue (on_failure item r w) = queue w.
Proof. unfold on_failure. by destruct (r <? MAX_RETRIES). Qed.

Lemma on_failure_awaiting item r w : awaiting (on_failure item r w) = awaiting w.
Proof. unfold on_failure. by destruct (r <? MAX_RETRIES). Qed.

Lemma on_failure_heap_length item r w :
  length (heap (on_failure item r w)) = length (heap w).
Proof.
  unfold on_failure. destruct (r <? MAX_RETRIES); simpl; [|done].
  by rewrite length_alter.
Qed.

Section RetryCeiling.

Variable A : loc.

(** The stage of [A] depends on the world only through what is read here. *)
Lemma retry_stage_frame d w w' :
  deref (heap w') A = deref (heap w) A →
  (∀ r, awaiting w' = Some (Flight A r) ↔ awaiting w = Some (Flight A r)) →
  timers_of A w' = timers_of A w →
  attempts A (trace w') = attempts A (trace w) →
  delays A (trace w') = delays A (trace w) →
  dropped A (trace w') = dropped A (trace w) →
  retry_stage A d w → retry_stage A d w'.
Proof.
  intros Hh Ha Ht Hk Hd Hx Hst.
  assert (¬ in_flight A w → ¬ in_flight A w') as Hnf.
  { intros Hn [r Hr]. apply Hn. exists r. by apply Ha. }
  destruct Hst.
  - eapply Buffered; rewrite ?Hh, ?Ht, ?Hk, ?Hd, ?Hx; eauto.
  - eapply InFlight; rewrite ?Hh, ?Ht, ?Hk, ?Hd, ?Hx; eauto. by apply Ha.
  - eapply Backoff; rewrite ?Hh, ?Ht, ?Hk, ?Hd, ?Hx; eauto.
  - eapply Dropped; rewrite ?Hh, ?Ht, ?Hk, ?Hd, ?Hx; eauto.
Qed.

(** The buffer matters only through the number of occurrences of [A]. *)
Lemma retry_stage_buffer d d' w :
  occ A d' = occ A d → retry_stage A d w → retry_stage A d' w.
Proof.
  intros Ho Hst. destruct Hst.
  - eapply Buffered; eauto. congruence.
  - eapply InFlight; eauto. congruence.
  - eapply Backoff; eauto. congruence.
  - eapply Dropped; eauto. congruence.
Qed.

Lemma on_failure_other item r d w :
  item ≠ A → retry_stage A d w → retry_stage A d (on_failure item r w).
Proof.
  intros Hne. assert (Nat.eqb item A = false) as Hb by by apply Nat.eqb_neq.
  apply retry_stage_frame; unfold on_failure, timers_of;
    destruct (r <? MAX_RETRIES); simpl;
    read_trace with Hb; try done.
  - by apply deref_alter_ne.
  - rewrite fmap_app, count_occ_app. simpl.
    destruct (Nat.eq_dec item A); [done|lia].
Qed.

(** The loop has just made an attempt on [A], which failed with the local
    [retries = r]. *)
Lemma on_failure_self r d w :
  A < length (heap w) →
  occ A d = 0 → ¬ in_flight A w → timers_of A w = 0 →
  attempts A (trace w) = S r → r ≤ 5 →
  delays A (trace w) = take r backoffs →
  dropped A (trace w) = false →
  retry_stage A d (on_failure A r w).
Proof.
  intros Hv Ho Hf Ht Hk Hr Hd Hx. unfold on_failure.
  destruct (r <? MAX_RETRIES) eqn:Hlt.
  - apply Nat.ltb_lt in Hlt.
    apply (Backoff _ _ _ (S r)); unfold timers_of in *; simpl;
      rewrite ?attempts_snoc, ?delays_snoc, ?dropped_snoc; simpl;
      rewrite ?Nat.eqb_refl; simpl; try done; try lia.
    + rewrite fmap_app, count_occ_app, Ht. simpl.
      by destruct (Nat.eq_dec A A).
    + rewrite deref_alter_eq by done. simpl. f_equal. lia.
    + rewrite Hd. by apply take_backoffs_step.
    + by rewrite Hx.
  - apply Nat.ltb_ge in Hlt. unfold MAX_RETRIES in Hlt.
    assert (r = 5) as -> by lia.
    apply Dropped; simpl;
      rewrite ?attempts_snoc, ?delays_snoc, ?dropped_snoc; simpl;
      rewrite ?Nat.eqb_refl; simpl;
      rewrite ?app_nil_r, ?orb_true_r; try done; lia.
Qed.

Lemma retry_stage_take rest w :
  retry_stage A (A :: rest) w →
  ∃ k, attempts A (trace w) = k ∧ occ A rest = 0 ∧ timers_of A w = 0
       ∧ _retries (deref (heap w) A) = Some k ∧ k ≤ 5
       ∧ delays A (trace w) = take k backoffs
       ∧ dropped A (trace w) = false.
Proof.
  intros Hst. destruct Hst as [k ? Ho | r Ho | k ? Ho | Ho];
    rewrite occ_cons_eq in Ho; try done.
  exists k. repeat split; try done. lia.
Qed.

(** The processing loop, started on buffer [d] with nothing in flight,
    keeps the stage invariant of [A] and the single-flight discipline. *)
Lemma process_loop_retry d w :
  sink_ok w → awaiting w = None → processing (queue w) = true →
  A < length (heap w) →
  retry_stage A d w →
  single_flight (process_loop d w)
  ∧ retry_stage A (data (queue (process_loop d w))) (process_loop d w).
Proof.
  revert w. induction d as [|item rest IH]; intros w Hs Ha Hp Hv Hst.
  - simpl. split.
    + intros [f Hf]. simpl in Hf. congruence.
    + apply (retry_stage_frame [] w); simpl; try done.
  - cbn [process_loop]. simpl.
    destruct (decide (item = A)) as [->|Hne].
    + destruct (retry_stage_take rest w Hst)
        as (k & Hk & Ho & Ht & Hr & Hk5 & Hd & Hx).
      rewrite Hr. simpl.
      assert (¬ in_flight A w) as Hnf.
      { intros [r Hf]. congruence. }
      destruct (handler (queue w)) as [h|] eqn:Hh.
      * destruct (h (calls w) A).
        -- apply IH; rewrite ?on_failure_queue, ?on_failure_awaiting,
             ?on_failure_heap_length; simpl; try done.
           ++ unfold sink_ok. rewrite on_failure_queue. simpl.
              left. by rewrite Hh.
           ++ apply on_failure_self; simpl;
                read_trace;
                try done; lia.
        -- split; [by intros _|].
           apply (InFlight _ _ _ k); simpl;
             read_trace;
             try done; lia.
      * destruct Hs as [[? Hs]|Hs]; [congruence|]. rewrite Hs.
        split; [by intros _|].
        apply (InFlight _ _ _ k); simpl;
          read_trace;
          try done; lia.
    + assert (Nat.eqb item A = false) as Hb by by apply Nat.eqb_neq.
      assert (retry_stage A rest w) as Hst'.
      { eapply retry_stage_buffer; [|done]. by rewrite occ_cons_ne. }
      destruct (handler (queue w)) as [h|] eqn:Hh.
      * destruct (h (calls w) item).
        -- apply IH; rewrite ?on_failure_queue, ?on_failure_awaiting,
             ?on_failure_heap_length; simpl; try done.
           ++ unfold sink_ok. rewrite on_failure_queue. simpl.
              left. by rewrite Hh.
           ++ apply on_failure_other; [done|].
              apply (retry_stage_frame rest w); simpl;
                read_trace with Hb; try done; lia.
        -- split; [by intros _|].
           apply (retry_stage_frame rest w); simpl;
             read_trace with Hb; try done; try lia.
           intros r. rewrite Ha. split; intros; simplify_eq.
      * destruct Hs as [[? Hs]|Hs]; [congruence|]. rewrite Hs.
        split; [by intros _|].
        apply (retry_stage_frame rest w); simpl;
          read_trace with Hb; try done; try lia.
        intros r. rewrite Ha. split; intros; simplify_eq.
Qed.

(** What the loop never touches. *)
Lemma process_loop_setup d w :
  handler (queue (process_loop d w)) = handler (queue w)
  ∧ webhookUrl (queue (process_loop d w)) = webhookUrl (queue w)
  ∧ discardedItems (queue (process_loop d w)) = discardedItems (queue w)
  ∧ maxSize (queue (process_loop d w)) = maxSize (queue w)
  ∧ length (heap (process_loop d w)) = length (heap w).
Proof.
  revert w. induction d as [|item rest IH]; intros w; [done|].
  cbn [process_loop]. simpl.
  destruct (handler (queue w)) as [h|] eqn:Hh.
  - destruct (h (calls w) item); [|done].
    destruct (IH (on_failure item (or0 (_retries (deref (heap w) item)))
                    (count_call (emit (HandlerCalled ViaLoop item)
                       (on_queue (set_data rest) w)))))
      as (-> & -> & -> & -> & ->).
    by rewrite on_failure_queue, on_failure_heap_length.
  - destruct (truthy (webhookUrl (queue w))); [done|].
    destruct (IH (on_queue (set_data rest) w)) as (-> & -> & -> & -> & ->).
    done.
Qed.

Lemma retry_inv_frame w w' :
  handler (queue w') = handler (queue w) →
  webhookUrl (queue w') = webhookUrl (queue w) →
  processing (queue w') = processing (queue w) →
  occ A (data (queue w')) = occ A (data (queue w)) →
  (VObj A ∉ discardedItems (queue w) → VObj A ∉ discardedItems (queue w')) →
  awaiting w' = awaiting w →
  length (heap w') = length (heap w) →
  deref (heap w') A = deref (heap w) A →
  timers_of A w' = timers_of A w →
  attempts A (trace w') = attempts A (trace w) →
  delays A (trace w') = delays A (trace w) →
  dropped A (trace w') = dropped A (trace w) →
  retry_inv A w → retry_inv A w'.
Proof.
  intros Hh Hu Hp Ho Hdi Ha Hl Hd Ht H1 H2 H3 (Hs & Hsf & Hv & Hnd & Hst).
  split; [|split; [|split; [|split]]].
  - unfold sink_ok. by rewrite Hh, Hu.
  - unfold single_flight. by rewrite Ha, Hp.
  - by rewrite Hl.
  - by apply Hdi.
  - eapply retry_stage_buffer; [exact Ho|].
    apply (retry_stage_frame _ w); try done. by rewrite Ha.
Qed.

Lemma saveData_retry_inv w : retry_inv A w → retry_inv A (saveData w).
Proof.
  apply retry_inv_frame; unfold saveData, timers_of;
    destruct (writable (disk w)); simpl;
    read_trace; try done; lia.
Qed.

Lemma process_loop_retry_inv d w :
  sink_ok w → awaiting w = None → processing (queue w) = true →
  A < length (heap w) → VObj A ∉ discardedItems (queue w) →
  retry_stage A d w →
  retry_inv A (process_loop d w).
Proof.
  intros Hs Ha Hp Hv Hnd Hst.
  destruct (process_loop_retry d w) as [Hsf Hst']; try done.
  destruct (process_loop_setup d w) as (Hh & Hu & Hdi & _ & Hl).
  split; [|split; [done|split; [|split; [|done]]]].
  - unfold sink_ok. by rewrite Hh, Hu.
  - by rewrite Hl.
  - by rewrite Hdi.
Qed.

Lemma processQueue_retry_inv w : retry_inv A w → retry_inv A (processQueue w).
Proof.
  intros (Hs & Hsf & Hv & Hnd & Hst). unfold processQueue.
  destruct (processing (queue w)) eqn:Hp; [done|].
  assert (awaiting w = None) as Ha.
  { destruct (awaiting w) eqn:Ha; [|done].
    assert (processing (queue w) = true) by (apply Hsf; by rewrite Ha).
    congruence. }
  assert ((negb (bool_decide (is_Some (handler (queue w))))
           && negb (truthy (webhookUrl (queue w)))) = false) as Hsink.
  { destruct Hs as [Hs|Hs].
    - by rewrite bool_decide_true.
    - rewrite Hs. by rewrite andb_false_r. }
  simpl. rewrite Hsink.
  apply process_loop_retry_inv; simpl; try done.
  apply (retry_stage_frame _ w); simpl; try done.
Qed.

Lemma timers_of_delete w i t :
  timeouts w !! i = Some t →
  timers_of A w
  = timers_of A (set_timeouts (delete i (timeouts w)) w)
    + (if decide (t_item t = A) then 1 else 0).
Proof.
  intros Hi. unfold timers_of. simpl. rewrite fmap_delete_list.
  apply count_occ_delete. by rewrite list_lookup_fmap, Hi.
Qed.

Lemma addItem_retry_inv item w :
  item ≠ VObj A → retry_inv A w → retry_inv A (addItem item w).1.
Proof.
  intros Hne Hinv. unfold addItem.
  destruct (is_full (queue w)) eqn:Hfull.
  - assert (retry_inv A
              (on_queue (λ q, set_discardedItems (discardedItems q ++ [item]) q)
                 (emit (Emitted "discarded" item) w))) as Hdisc.
    { revert Hinv. apply retry_inv_frame; unfold timers_of; simpl;
        read_trace; try done; try lia.
      intros Hn [H|H%list_elem_of_singleton]%elem_of_app; [done|].
      by subst item. }
    by destruct item.
  - destruct item as [| | | | |l]; simpl; try done.
    assert (l ≠ A) as Hl by (intros ->; by apply Hne).
    assert (Nat.eqb l A = false) as Hb by by apply Nat.eqb_neq.
    set (w3 := emit (Emitted "itemAdded" (VObj l))
                 (on_queue (λ q, set_data (data q ++ [l]) q)
                    (set_heap (alter (write_retries 0) l (heap w)) w))).
    assert (retry_inv A w3) as H3.
    { revert Hinv. apply retry_inv_frame; unfold timers_of; simpl;
        rewrite ?attempts_snoc, ?delays_snoc, ?dropped_snoc; simpl;
        rewrite ?app_nil_r, ?orb_false_r, ?length_alter; try done; try lia.
      - by apply occ_snoc_ne.
      - by apply deref_alter_ne. }
    destruct (itemAddedListener (queue w)) as [h|].
    + set (w4 := count_call (emit (HandlerCalled ViaListener l) w3)).
      assert (retry_inv A w4) as H4.
      { revert H3. apply retry_inv_frame; unfold timers_of; simpl;
          read_trace; try done; lia. }
      destruct (h (calls w) l); simpl; [done|].
      apply processQueue_retry_inv, saveData_retry_inv.
      revert H4. by apply retry_inv_frame.
    + simpl. by apply processQueue_retry_inv, saveData_retry_inv.
Qed.

Lemma resume_retry_inv ok w w' :
  (in_flight A w → ok = false) →
  retry_inv A w → resume ok w = Some w' → retry_inv A w'.
Proof.
  intros Hfail (Hs & Hsf & Hv & Hnd & Hst). unfold resume.
  destruct (awaiting w) as [[item r]|] eqn:Ha; [|done].
  intros [= <-]. simpl.
  assert (processing (queue w) = true) as Hp by (apply Hsf; by rewrite Ha).
  set (w1 := set_awaiting None w).
  set (w2 := if ok then w1 else on_failure item r w1).
  assert (queue w2 = queue w ∧ awaiting w2 = None
          ∧ length (heap w2) = length (heap w)) as (Hq & Ha2 & Hl2).
  { subst w2. destruct ok; [done|].
    by rewrite on_failure_queue, on_failure_awaiting, on_failure_heap_length. }
  assert (retry_stage A (data (queue w)) w2) as Hst2.
  { destruct (decide (item = A)) as [->|Hne].
    - subst w2. rewrite Hfail by by exists r.
      destruct Hst as [k ? ? Hnf | r' Ho Ha' Ht Hk Hr Hd Hx | k ? ? Hnf | ? Hnf];
        try (exfalso; apply Hnf; by exists r).
      rewrite Ha in Ha'. injection Ha' as <-.
      apply on_failure_self; simpl; try done.
      intros [? ?]; done.
    - assert (retry_stage A (data (queue w)) w1) as Hst1.
      { revert Hst. apply retry_stage_frame; simpl; try done.
        intros r'. rewrite Ha. split; intros; simplify_eq. }
      subst w2. destruct ok; [done|]. by apply on_failure_other. }
  rewrite Hq. apply process_loop_retry_inv; rewrite ?Hq, ?Hl2; try done.
  unfold sink_ok. by rewrite Hq.
Qed.

Lemma fire_retry_inv i w w' :
  retry_inv A w → fire i w = Some w' → retry_inv A w'.
Proof.
  intros Hinv. unfold fire.
  destruct (timeouts w !! i) as [t|] eqn:Hi; [|done].
  destruct (due t <=? clock w); [|done]. intros [= <-].
  apply processQueue_retry_inv.
  pose proof (timers_of_delete w i t Hi) as Hcount.
  destruct Hinv as (Hs & Hsf & Hv & Hnd & Hst).
  split; [done|]. split; [done|]. split; [done|]. split; [done|]. simpl.
  destruct (decide (t_item t = A)) as [Heq|Hne].
  - rewrite Heq.
    destruct Hst as [k ? ? ? Ht | r ? ? Ht | k Hk Ho Hnf Ht Hr H1 H5 Hd Hx | ? ? Ht];
      try (rewrite Ht in Hcount; lia).
    apply (Buffered _ _ _ k); simpl; try done.
    + by rewrite occ_cons_eq, Ho.
    + rewrite Ht in Hcount. unfold timers_of in *. simpl in *. lia.
  - eapply retry_stage_buffer.
    { by apply occ_cons_ne. }
    revert Hst. apply retry_stage_frame; simpl; try done.
    unfold timers_of in *. simpl in *. lia.
Qed.

(** Every allowed action keeps the invariant of the failing item. *)
Lemma exec_retry_inv a w w' :
  failing_env A w a → retry_inv A w → exec a w = Some w' → retry_inv A w'.
Proof.
  intros Henv Hinv. destruct a; simpl in *; try done.
  - intros [= <-]. by apply addItem_retry_inv.
  - intros [= <-]. subst shift. unfold getItem.
    by destruct (data (queue w)).
  - intros [= <-]. revert Hinv. by apply retry_inv_frame.
  - by apply resume_retry_inv.
  - unfold listener_settles. destruct (listening w !! i); [|done].
    intros [= <-]. revert Hinv.
    apply retry_inv_frame; unfold timers_of; destruct ok; simpl;
      read_trace; try done; lia.
  - by apply fire_retry_inv.
  - destruct (persistenceTimer (queue w)); [|done].
    intros [= <-]. by apply saveData_retry_inv.
  - intros [= <-]. revert Hinv. by apply retry_inv_frame.
Qed.

Lemma runs_retry_inv w acts w' :
  runs (failing_env A) w acts w' → retry_inv A w → retry_inv A w'.
Proof.
  induction 1 as [|w a w1 acts w2 Henv Hexec _ IH]; [done|].
  intros Hinv. apply IH. by eapply exec_retry_inv.
Qed.

Lemma addItem_unseen w :
  sink_ok w → single_flight w → A < length (heap w) → unseen A w →
  is_full (queue w) = false →
  retry_inv A (addItem (VObj A) w).1.
Proof.
  intros Hs Hsf Hv (Ho & Hnf & Ht & Hk & Hd & Hx & Hnd) Hfull.
  unfold addItem. rewrite Hfull.
  set (w3 := emit (Emitted "itemAdded" (VObj A))
               (on_queue (λ q, set_data (data q ++ [A]) q)
                  (set_heap (alter (write_retries 0) A (heap w)) w))).
  assert (retry_inv A w3) as H3.
  { split; [done|]. split; [done|]. split; [by simpl; rewrite length_alter|].
    split; [done|].
    apply (Buffered _ _ _ 0); simpl;
      read_trace; try done; try lia.
    - unfold occ in *. rewrite count_occ_app, Ho. simpl.
      by destruct (Nat.eq_dec A A).
    - by rewrite deref_alter_eq. }
  change (itemAddedListener (queue w3)) with (itemAddedListener (queue w)).
  destruct (itemAddedListener (queue w)) as [h|]; simpl.
  - set (w4 := count_call (emit (HandlerCalled ViaListener A) w3)).
    assert (retry_inv A w4) as H4.
    { revert H3. apply retry_inv_frame; unfold timers_of; simpl;
        read_trace; try done; lia. }
    destruct (h (calls w) A); simpl; [done|].
    apply processQueue_retry_inv, saveData_retry_inv.
    revert H4. by apply retry_inv_frame.
  - by apply processQueue_retry_inv, saveData_retry_inv.
Qed.

End RetryCeiling.

Lemma runs_of_run (P : world → action → Prop) acts w w' :
  Forall (λ a, ∀ v, P v a) acts → run acts w = Some w' → runs P w acts w'.
Proof.
  intros Hall. revert w. induction Hall as [|a acts Ha _ IH]; intros w; simpl.
  - intros [= <-]. constructor.
  - destruct (exec a w) as [w1|] eqn:He; [|done].
    intros Hrun. eapply runs_cons; eauto.
Qed.

(** The retry timer is due [2^r * 100] time units after the failure, and
    its callback cannot run earlier. *)
Lemma on_failure_due item r w :
  r < MAX_RETRIES →
  timeouts (on_failure item r w)
  = timeouts w ++ [Timer (clock w + 2 ^ r * 100) item].
Proof. unfold on_failure. intros Hr%Nat.ltb_lt. by rewrite Hr. Qed.

Lemma fire_not_before_due i w w' :
  fire i w = Some w' → ∃ t, timeouts w !! i = Some t ∧ due t ≤ clock w.
Proof.
  unfold fire. destruct (timeouts w !! i) as [t|]; [|done].
  destruct (due t <=? clock w) eqn:Hd; [|done].
  intros _. exists t. split; [done|]. by apply Nat.leb_le.
Qed.


(** ** Retried items go first *)

Section Ordering.

Variables A B : loc.
Hypothesis HAB : A ≠ B.

Lemma first_attempt_app s s' :
  first_attempt A B (s ++ s')
  = match first_attempt A B s with
    | Some x => Some x
    | None => first_attempt A B s'
    end.
Proof.
  induction s as [|o s IH]; simpl; [done|].
  destruct (is_attempt A o); [done|]. by destruct (is_attempt B o).
Qed.

Lemma first_attempt_snoc_other s o :
  is_attempt A o = false → is_attempt B o = false →
  first_attempt A B (s ++ [o]) = first_attempt A B s.
Proof.
  intros Ha Hb. rewrite first_attempt_app. simpl. rewrite Ha, Hb.
  by destruct (first_attempt A B s).
Qed.

Lemma first_attempt_stays s s' :
  first_attempt A B s = Some A → first_attempt A B (s ++ s') = Some A.
Proof. intros H. by rewrite first_attempt_app, H. Qed.

Lemma on_failure_trace item r w :
  ∃ o, trace (on_failure item r w) = trace w ++ [o]
       ∧ ∀ X, is_attempt X o = false.
Proof.
  unfold on_failure. destruct (r <? MAX_RETRIES); simpl; by eexists.
Qed.

Lemma process_loop_trace d w :
  ∃ more, trace (process_loop d w) = trace w ++ more.
Proof.
  revert w. induction d as [|item rest IH]; intros w.
  - exists []. simpl. by rewrite app_nil_r.
  - cbn [process_loop]. simpl.
    destruct (handler (queue w)) as [h|].
    + destruct (h (calls w) item).
      * destruct (IH (on_failure item (or0 (_retries (deref (heap w) item)))
                        (count_call (emit (HandlerCalled ViaLoop item)
                           (on_queue (set_data rest) w))))) as [more ->].
        destruct (on_failure_trace item (or0 (_retries (deref (heap w) item)))
                    (count_call (emit (HandlerCalled ViaLoop item)
                       (on_queue (set_data rest) w)))) as (o & -> & _).
        simpl. rewrite <- !app_assoc. by eexists.
      * simpl. by eexists.
    + destruct (truthy (webhookUrl (queue w))).
      * simpl. by eexists.
      * destruct (IH (on_queue (set_data rest) w)) as [more ->]. by eexists.
Qed.

(** With a sink, the first thing the loop does is an attempt on the head
    of the buffer. *)
Lemma process_loop_head_attempt item rest w :
  sink_ok w →
  ∃ o more, is_attempt item o = true
            ∧ trace (process_loop (item :: rest) w) = trace w ++ o :: more.
Proof.
  intros Hs. cbn [process_loop]. simpl.
  destruct (handler (queue w)) as [h|] eqn:Hh.
  - exists (HandlerCalled ViaLoop item).
    destruct (h (calls w) item).
    + destruct (process_loop_trace rest
                  (on_failure item (or0 (_retries (deref (heap w) item)))
                     (count_call (emit (HandlerCalled ViaLoop item)
                        (on_queue (set_data rest) w))))) as [more ->].
      destruct (on_failure_trace item (or0 (_retries (deref (heap w) item)))
                  (count_call (emit (HandlerCalled ViaLoop item)
                     (on_queue (set_data rest) w)))) as (o & -> & _).
      simpl. exists (o :: more). rewrite Nat.eqb_refl.
      by rewrite <- !app_assoc.
    + exists []. simpl. by rewrite Nat.eqb_refl.
  - destruct Hs as [[? Hs]|Hs]; [congruence|]. rewrite Hs.
    exists (webhook_request item (on_queue (set_data rest) w)), [].
    simpl. by rewrite Nat.eqb_refl.
Qed.

Lemma timers_of_on_failure_ne item r w :
  item ≠ B → timers_of B (on_failure item r w) = timers_of B w.
Proof.
  intros Hne. unfold on_failure, timers_of.
  destruct (r <? MAX_RETRIES); simpl; [|done].
  rewrite fmap_app, count_occ_app. simpl.
  destruct (Nat.eq_dec item B); [done|lia].
Qed.

Lemma process_loop_ahead tr0 d w suffix :
  sink_ok w → awaiting w = None → processing (queue w) = true →
  trace w = tr0 ++ suffix → first_attempt A B suffix = None →
  timers_of B w = 0 → ahead A B d →
  ahead_inv A B tr0 (process_loop d w).
Proof.
  revert w suffix.
  induction d as [|item rest IH]; intros w suffix Hs Ha Hp Htr Hfa Ht Hahead.
  { destruct Hahead as (d1 & d2 & Hd & _). by destruct d1. }
  destruct (decide (item = A)) as [->|HneA].
  { destruct (process_loop_head_attempt A rest w Hs) as (o & more & Ho & Htr').
    left. exists (suffix ++ o :: more). split.
    - by rewrite Htr', Htr, <- app_assoc.
    - rewrite first_attempt_app, Hfa. simpl. by rewrite Ho. }
  destruct Hahead as (d1 & d2 & Hd & HB1 & HB2).
  destruct d1 as [|x d1]; simplify_eq/=.
  apply not_elem_of_cons in HB1 as [HneB HB1].
  assert (ahead A B (d1 ++ A :: d2)) as Hrest by by exists d1, d2.
  assert (Nat.eqb x A = false) as HbA by by apply Nat.eqb_neq.
  assert (Nat.eqb x B = false) as HbB.
  { apply Nat.eqb_neq. congruence. }
  destruct (handler (queue w)) as [h|] eqn:Hh.
  - destruct (h (calls w) x).
    + set (w1 := count_call (emit (HandlerCalled ViaLoop x)
                   (on_queue (set_data (d1 ++ A :: d2)) w))).
      destruct (on_failure_trace x (or0 (_retries (deref (heap w) x))) w1)
        as (o & Ho & Hno).
      eapply (IH _ ((suffix ++ [HandlerCalled ViaLoop x]) ++ [o]));
        rewrite ?on_failure_queue, ?on_failure_awaiting; try done.
      * unfold sink_ok. rewrite on_failure_queue. simpl. left. by rewrite Hh.
      * rewrite Ho. simpl. rewrite Htr. by rewrite <- !app_assoc.
      * rewrite !first_attempt_snoc_other; simpl; rewrite ?HbA, ?HbB; done.
      * rewrite timers_of_on_failure_ne by congruence. done.
    + right. exists (suffix ++ [HandlerCalled ViaLoop x]). split.
      { simpl. by rewrite Htr, <- app_assoc. }
      rewrite first_attempt_snoc_other; simpl; rewrite ?HbA, ?HbB;
        try done.
      split; [done|]. split; [by unfold sink_ok; simpl; left; rewrite Hh|].
      split; [by intros _|]. split; [|done].
      intros [r Hr]. simpl in Hr. congruence.
  - destruct Hs as [[? Hs]|Hs]; [congruence|]. rewrite Hs.
    right.
    exists (suffix ++ [webhook_request x (on_queue (set_data (d1 ++ A :: d2)) w)]).
    split.
    { simpl. by rewrite Htr, <- app_assoc. }
    rewrite first_attempt_snoc_other; simpl; rewrite ?HbA, ?HbB;
      try done.
    split; [done|]. split; [by unfold sink_ok; simpl; right|].
    split; [by intros _|]. split; [|done].
    intros [r Hr]. simpl in Hr. congruence.
Qed.

(** Every step only adds to the trace. *)
Lemma saveData_trace w : ∃ more, trace (saveData w) = trace w ++ more.
Proof.
  unfold saveData. destruct (writable (disk w)); simpl; [|by eexists].
  exists []. by rewrite app_nil_r.
Qed.

Lemma processQueue_trace w : ∃ more, trace (processQueue w) = trace w ++ more.
Proof.
  unfold processQueue. destruct (processing (queue w)).
  { exists []. by rewrite app_nil_r. }
  destruct (_ && _).
  { exists []. simpl. by rewrite app_nil_r. }
  destruct (process_loop_trace (data (queue (on_queue (set_processing true) w)))
              (on_queue (set_processing true) w)) as [more ->].
  by eexists.
Qed.

Lemma trace_extends_trans (w1 w2 w3 : world) :
  (∃ more, trace w2 = trace w1 ++ more) →
  (∃ more, trace w3 = trace w2 ++ more) →
  ∃ more, trace w3 = trace w1 ++ more.
Proof. intros [m1 H1] [m2 H2]. exists (m1 ++ m2). by rewrite H2, H1, app_assoc. Qed.

Lemma trace_extends_refl (w w' : world) :
  trace w' = trace w → ∃ more, trace w' = trace w ++ more.
Proof. intros ->. exists []. by rewrite app_nil_r. Qed.

Lemma addItem_trace item w : ∃ more, trace (addItem item w).1 = trace w ++ more.
Proof.
  unfold addItem.
  destruct (is_full (queue w)).
  { destruct item; simpl; try by eexists. by apply trace_extends_refl. }
  destruct item as [| | | | |l]; simpl; try by apply trace_extends_refl.
  destruct (itemAddedListener (queue w)) as [h|].
  - destruct (h (calls w) l); simpl; [rewrite <- app_assoc; by eexists|].
    eapply trace_extends_trans; [|apply processQueue_trace].
    eapply trace_extends_trans; [|apply saveData_trace].
    simpl. rewrite <- app_assoc. by eexists.
  - simpl. eapply trace_extends_trans; [|apply processQueue_trace].
    eapply trace_extends_trans; [|apply saveData_trace].
    simpl. by eexists.
Qed.

Lemma exec_trace a w w' :
  exec a w = Some w' → ∃ more, trace w' = trace w ++ more.
Proof.
  destruct a; simpl.
  - intros [= <-]. apply addItem_trace.
  - intros [= <-]. unfold getItem. apply trace_extends_refl.
    destruct (data (queue w)); [done|]. by destruct shift.
  - intros [= <-]. unfold registerHandler.
    destruct cb as [v|f]; [by apply trace_extends_refl|].
    destruct (truthy _); [by apply trace_extends_refl|]. simpl.
    eapply trace_extends_trans; [|apply processQueue_trace].
    by apply trace_extends_refl.
  - intros [= <-]. unfold registerWebhook.
    destruct url, apiKey; try by apply trace_extends_refl.
    destruct (negb _); [by apply trace_extends_refl|].
    destruct (bool_decide _); [by apply trace_extends_refl|]. simpl.
    eapply trace_extends_trans; [|apply processQueue_trace].
    by apply trace_extends_refl.
  - intros [= <-]. unfold drain, stopPersistence. simpl.
    eapply trace_extends_trans; [|apply saveData_trace].
    by apply trace_extends_refl.
  - intros [= <-]. by apply trace_extends_refl.
  - intros [= <-]. by apply trace_extends_refl.
  - unfold resume. destruct (awaiting w) as [f|]; [|done]. intros [= <-].
    eapply trace_extends_trans; [|apply process_loop_trace].
    destruct ok; [by apply trace_extends_refl|].
    destruct (on_failure_trace (f_item f) (f_retries f) (set_awaiting None w))
      as (o & -> & _). by eexists.
  - unfold listener_settles. destruct (listening w !! i); [|done].
    intros [= <-]. destruct ok; [by apply trace_extends_refl|]. by eexists.
  - unfold fire. destruct (timeouts w !! i) as [t|]; [|done].
    destruct (due t <=? clock w); [|done]. intros [= <-].
    eapply trace_extends_trans; [|apply processQueue_trace].
    by apply trace_extends_refl.
  - destruct (persistenceTimer (queue w)); [|done]. intros [= <-].
    apply saveData_trace.
  - intros [= <-]. by apply trace_extends_refl.
Qed.

Lemma served_extends tr0 w w' :
  served A B tr0 w → (∃ more, trace w' = trace w ++ more) → served A B tr0 w'.
Proof.
  intros (suffix & Htr & Hfa) [more Hmore].
  exists (suffix ++ more). split.
  - by rewrite Hmore, Htr, app_assoc.
  - by apply first_attempt_stays.
Qed.

(** A step that makes no attempt on [A] or [B] and leaves [B] where it
    is. *)
Lemma waiting_frame tr0 w w' more :
  trace w' = trace w ++ more → first_attempt A B more = None →
  handler (queue w') = handler (queue w) →
  webhookUrl (queue w') = webhookUrl (queue w) →
  processing (queue w') = processing (queue w) →
  awaiting w' = awaiting w →
  timers_of B w' = timers_of B w →
  (ahead A B (data (queue w)) → ahead A B (data (queue w'))) →
  waiting A B tr0 w → waiting A B tr0 w'.
Proof.
  intros Htr Hnone Hh Hu Hp Ha Ht Hd
    (suffix & Htr0 & Hfa & Hs & Hsf & Hnf & Ht0 & Hahead).
  exists (suffix ++ more). split; [by rewrite Htr, Htr0, app_assoc|].
  split; [by rewrite first_attempt_app, Hfa|].
  split; [unfold sink_ok; by rewrite Hh, Hu|].
  split; [unfold single_flight; by rewrite Ha, Hp|].
  split; [unfold in_flight; by rewrite Ha|].
  split; [by rewrite Ht|]. by apply Hd.
Qed.

Lemma processQueue_ahead tr0 w :
  waiting A B tr0 w → ahead_inv A B tr0 (processQueue w).
Proof.
  intros Hw. unfold processQueue.
  destruct (processing (queue w)) eqn:Hp; [by right|].
  destruct Hw as (suffix & Htr0 & Hfa & Hs & Hsf & Hnf & Ht0 & Hahead).
  assert (awaiting w = None) as Ha.
  { destruct (awaiting w) eqn:Ha; [|done].
    assert (processing (queue w) = true) by (apply Hsf; by rewrite Ha).
    congruence. }
  assert ((negb (bool_decide (is_Some (handler (queue w))))
           && negb (truthy (webhookUrl (queue w)))) = false) as Hsink.
  { destruct Hs as [Hs|Hs].
    - by rewrite bool_decide_true.
    - rewrite Hs. by rewrite andb_false_r. }
  simpl. rewrite Hsink.
  by apply (process_loop_ahead tr0 _ _ suffix).
Qed.

Lemma saveData_waiting tr0 w : waiting A B tr0 w → waiting A B tr0 (saveData w).
Proof.
  unfold saveData. destruct (writable (disk w)).
  - apply (waiting_frame tr0 w _ []); simpl; try done. by rewrite app_nil_r.
  - by apply (waiting_frame tr0 w _
                [ErrorLogged ("Error saving data for queue " +:+ name (queue w))]).
Qed.

Lemma ahead_snoc d l : ahead A B d → ahead A B (d ++ [l]).
Proof.
  intros (d1 & d2 & -> & H1 & H2). exists d1, (d2 ++ [l]).
  split; [by rewrite <- app_assoc|]. split; [done|].
  apply elem_of_app. by left.
Qed.

Lemma ahead_cons d x : x ≠ B → ahead A B d → ahead A B (x :: d).
Proof.
  intros Hx (d1 & d2 & -> & H1 & H2). exists (x :: d1), d2.
  split; [done|]. split; [|done].
  apply not_elem_of_cons. split; [congruence|done].
Qed.

Lemma addItem_ahead tr0 item w :
  waiting A B tr0 w → ahead_inv A B tr0 (addItem item w).1.
Proof.
  intros Hw. unfold addItem.
  destruct (is_full (queue w)).
  { assert (waiting A B tr0
              (on_queue (λ q, set_discardedItems (discardedItems q ++ [item]) q)
                 (emit (Emitted "discarded" item) w))) as Hd.
    { revert Hw.
      by apply (waiting_frame tr0 w _ [Emitted "discarded" item]). }
    destruct item; simpl; by right. }
  destruct item as [| | | | |l]; simpl; try by right.
  set (w3 := emit (Emitted "itemAdded" (VObj l))
               (on_queue (λ q, set_data (data q ++ [l]) q)
                  (set_heap (alter (write_retries 0) l (heap w)) w))).
  assert (waiting A B tr0 w3) as H3.
  { revert Hw.
    apply (waiting_frame tr0 w _ [Emitted "itemAdded" (VObj l)]);
      simpl; try done.
    apply ahead_snoc. }
  destruct (itemAddedListener (queue w)) as [h|].
  - set (w4 := count_call (emit (HandlerCalled ViaListener l) w3)).
    assert (waiting A B tr0 w4) as H4.
    { revert H3.
      by apply (waiting_frame tr0 w3 _ [HandlerCalled ViaListener l]). }
    destruct (h (calls w) l); simpl; [by right|].
    apply processQueue_ahead. apply saveData_waiting.
    revert H4. apply (waiting_frame tr0 w4 _ []); simpl; try done.
    by rewrite app_nil_r.
  - simpl. apply processQueue_ahead. by apply saveData_waiting.
Qed.

Lemma resume_ahead tr0 ok w w' :
  waiting A B tr0 w → resume ok w = Some w' → ahead_inv A B tr0 w'.
Proof.
  intros (suffix & Htr0 & Hfa & Hs & Hsf & Hnf & Ht0 & Hahead).
  unfold resume. destruct (awaiting w) as [[x r]|] eqn:Ha; [|done].
  intros [= <-].
  assert (x ≠ B) as Hx.
  { intros ->. apply Hnf. by exists r. }
  assert (processing (queue w) = true) as Hp by (apply Hsf; by rewrite Ha).
  destruct ok.
  - apply (process_loop_ahead tr0 _ _ suffix); simpl; try done.
  - rewrite on_failure_queue. simpl.
    destruct (on_failure_trace x r (set_awaiting None w)) as (o & Ho & Hno).
    apply (process_loop_ahead tr0 _ _ (suffix ++ [o]));
      rewrite ?on_failure_queue, ?on_failure_awaiting; simpl; try done.
    + unfold sink_ok. by rewrite on_failure_queue.
    + rewrite Ho. simpl. by rewrite Htr0, app_assoc.
    + by rewrite first_attempt_snoc_other.
    + by rewrite timers_of_on_failure_ne.
Qed.

Lemma fire_ahead tr0 i w w' :
  waiting A B tr0 w → fire i w = Some w' → ahead_inv A B tr0 w'.
Proof.
  intros Hw. unfold fire.
  destruct (timeouts w !! i) as [t|] eqn:Hi; [|done].
  destruct (due t <=? clock w); [|done]. intros [= <-].
  apply processQueue_ahead.
  pose proof (timers_of_delete B w i t Hi) as Hcount.
  assert (timers_of B w = 0) as Ht0 by (by destruct Hw as (? & ? & ? & ? & ? & ? & ? & ?)).
  rewrite Ht0 in Hcount.
  revert Hw. apply (waiting_frame tr0 w _ []); simpl; try done.
  - by rewrite app_nil_r.
  - unfold timers_of in *. simpl in *. lia.
  - apply ahead_cons. destruct (decide (t_item t = B)); [lia|done].
Qed.

Lemma exec_ahead tr0 a w w' :
  engine_env w a → ahead_inv A B tr0 w → exec a w = Some w' →
  ahead_inv A B tr0 w'.
Proof.
  intros Henv [Hserved|Hw] Hexec.
  { left. eapply served_extends; [done|]. by eapply exec_trace. }
  destruct a; simpl in *; try done.
  - injection Hexec as <-. by apply addItem_ahead.
  - injection Hexec as <-. subst shift. right. unfold getItem.
    by destruct (data (queue w)).
  - injection Hexec as <-. right. revert Hw.
    apply (waiting_frame tr0 w _ []); simpl; try done. by rewrite app_nil_r.
  - by eapply resume_ahead.
  - unfold listener_settles in Hexec. destruct (listening w !! i); [|done].
    injection Hexec as <-. right. revert Hw. destruct ok.
    + apply (waiting_frame tr0 w _ []); simpl; try done.
      by rewrite app_nil_r.
    + by apply (waiting_frame tr0 w _ [ErrorLogged "handler rejected"]).
  - by eapply fire_ahead.
  - destruct (persistenceTimer (queue w)); [|done].
    injection Hexec as <-. right. by apply saveData_waiting.
  - injection Hexec as <-. right. revert Hw.
    apply (waiting_frame tr0 w _ []); simpl; try done. by rewrite app_nil_r.
Qed.

Lemma runs_ahead tr0 w acts w' :
  runs engine_env w acts w' → ahead_inv A B tr0 w → ahead_inv A B tr0 w'.
Proof.
  induction 1 as [|w a w1 acts w2 Henv Hexec _ IH]; [done|].
  intros Hinv. apply IH. by eapply exec_ahead.
Qed.

End Ordering.

(** C4 (amended).  Retry reinsertion ordering.  [A] is held by a retry
    timer and [B] is still waiting in the buffer (and nowhere else) when
    the callback of that timer runs.  The callback puts [A] at the head of the buffer: if
    the loop is busy the buffer becomes [A] followed by the old buffer,
    and if it is idle [A] is attempted within the same step.  In every
    continuation (submissions, peeks, settling deliveries, other timers,
    time passing) the loop does not attempt [B] before it has attempted
    [A]; and as long as it has attempted neither, [A] is still ahead of
    [B] in the buffer. *)
Theorem retried_item_goes_first (A B : loc) (i : nat) (t : timer)
    (w w1 w' : world) (acts : list action) :
  A ≠ B → sink_ok w → single_flight w →
  timeouts w !! i = Some t → t_item t = A →
  B ∈ data (queue w) → ¬ in_flight B w → timers_of B w = 0 →
  fire i w = Some w1 →
  runs engine_env w1 acts w' →
  (if processing (queue w)
   then data (queue w1) = A :: data (queue w)
   else served A B (trace w) w1)
  ∧ ∃ suffix, trace w' = trace w ++ suffix
      ∧ first_attempt A B suffix ≠ Some B
      ∧ (first_attempt A B suffix = None →
           ahead A B (data (queue w')) ∧ ¬ in_flight B w' ∧ timers_of B w' = 0).
Proof.
  intros HAB Hs Hsf Hi HtA HB Hnf Ht0 Hfire Hruns.
  unfold fire in Hfire. rewrite Hi in Hfire.
  destruct (due t <=? clock w); [|done]. injection Hfire as <-.
  set (w0 := on_queue (λ q, set_data (t_item t :: data q) q)
               (set_timeouts (delete i (timeouts w)) w)).
  assert (waiting A B (trace w) w0) as Hw0.
  { exists []. simpl. rewrite app_nil_r.
    pose proof (timers_of_delete B w i t Hi) as Hcount.
    repeat split; try done.
    - unfold timers_of in *. simpl in *. lia.
    - exists [], (data (queue w)). rewrite HtA. repeat split; try done.
      apply not_elem_of_nil. }
  split.
  - unfold processQueue.
    change (processing (queue w0)) with (processing (queue w)).
    destruct (processing (queue w)) eqn:Hp; [by rewrite <- HtA|].
    assert ((negb (bool_decide (is_Some (handler (queue w))))
             && negb (truthy (webhookUrl (queue w)))) = false) as Hsink.
    { destruct Hs as [Hs|Hs].
      - by rewrite bool_decide_true.
      - rewrite Hs. by rewrite andb_false_r. }
    simpl. rewrite Hsink, HtA.
    destruct (process_loop_head_attempt A (data (queue w))
                (on_queue (set_processing true) w0)) as (o & more & Ho & Htr).
    { done. }
    exists (o :: more). split; [done|]. simpl. by rewrite Ho.
  - pose proof (processQueue_ahead A B HAB (trace w) w0 Hw0) as Hinv.
    apply (runs_ahead A B HAB (trace w) _ _ _ Hruns) in Hinv.
    destruct Hinv as [(suffix & Htr & Hfa)|(suffix & Htr & Hfa & _ & _ & Hnf' & Ht' & Hah)].
    + exists suffix. split; [done|]. split; [congruence|]. congruence.
    + exists suffix. split; [done|]. split; [congruence|]. done.
Qed.

(** ** The capacity bound *)

Lemma process_loop_length d w :
  length (data (queue (process_loop d w))) ≤ length d.
Proof.
  revert w. induction d as [|item rest IH]; intros w; [done|].
  cbn [process_loop]. simpl.
  destruct (handler (queue w)) as [h|].
  - destruct (h (calls w) item); simpl; [|lia].
    etrans; [apply IH|lia].
  - destruct (truthy (webhookUrl (queue w))); simpl; [lia|].
    etrans; [apply IH|lia].
Qed.

Lemma processQueue_capacity w :
  maxSize (queue (processQueue w)) = maxSize (queue w)
  ∧ length (data (queue (processQueue w))) ≤ length (data (queue w)).
Proof.
  unfold processQueue. destruct (processing (queue w)); [done|].
  destruct (_ && _); [done|].
  destruct (process_loop_setup (data (queue (on_queue (set_processing true) w)))
              (on_queue (set_processing true) w)) as (_ & _ & _ & -> & _).
  split; [done|]. apply process_loop_length.
Qed.

(** [addItem] keeps the buffer within the capacity, whatever the sink. *)
Lemma addItem_within_capacity item w :
  within_capacity w → within_capacity (addItem item w).1.
Proof.
  intros Hcap. unfold addItem.
  destruct (is_full (queue w)) eqn:Hfull.
  { by destruct item. }
  destruct item as [| | | | |l]; simpl; try done.
  assert (maxSize (queue w) ≤ 0
          ∨ Z.of_nat (length (data (queue w) ++ [l])) ≤ maxSize (queue w))%Z
    as Hroom.
  { unfold is_full in Hfull. apply andb_false_iff in Hfull.
    rewrite length_app. simpl.
    destruct Hfull as [H%Z.ltb_ge | H%Z.leb_gt]; [by left|right; lia]. }
  assert (∀ v, maxSize (queue v) = maxSize (queue w) →
               data (queue v) = data (queue w) ++ [l] →
               within_capacity (processQueue (saveData v))) as Hkick.
  { intros v Hm Hd. unfold within_capacity.
    destruct (processQueue_capacity (saveData v)) as [-> Hlen].
    rewrite saveData_queue in *. rewrite Hm. rewrite Hd in Hlen.
    destruct Hroom as [?|?]; [by left|right; lia]. }
  destruct (itemAddedListener (queue w)) as [h|].
  - destruct (h (calls w) l); simpl; [done|]. by apply Hkick.
  - simpl. by apply Hkick.
Qed.

(** [loadData] establishes it. *)
Lemma loadData_within_capacity w : within_capacity (loadData w).
Proof.
  unfold within_capacity.
  destruct (files (disk w) !! persistenceFilename (queue w)) as [f|] eqn:Hf.
  - destruct f as [|raw|parsed].
    + rewrite loadData_no_snapshot by eauto. simpl. lia.
    + rewrite loadData_no_snapshot by eauto. simpl. lia.
    + destruct (loadData_snapshot w parsed Hf) as (_ & -> & _ & ->).
      rewrite length_seq.
      destruct (_ && _)%Z eqn:Hcut.
      * apply andb_true_iff in Hcut as [H0%Z.ltb_lt _]. right. lia.
      * apply andb_false_iff in Hcut as [H%Z.ltb_ge | H%Z.ltb_ge];
          [by left|right; lia].
  - rewrite loadData_no_snapshot by eauto. simpl. lia.
Qed.

(** The callback of a retry timer puts its item back without looking at
    the capacity: when the loop is busy the buffer grows by one. *)
Lemma fire_busy_grows i t w w' :
  timeouts w !! i = Some t → processing (queue w) = true →
  fire i w = Some w' →
  data (queue w') = t_item t :: data (queue w)
  ∧ maxSize (queue w') = maxSize (queue w).
Proof.
  intros Hi Hp. unfold fire. rewrite Hi.
  destruct (due t <=? clock w); [|done]. intros [= <-].
  unfold processQueue. simpl. by rewrite Hp.
Qed.

(** C3, at the failing input.  With [maxSize = 1] and a webhook: the
    first object fails and is scheduled for a retry, the second one is
    in flight, the third one is accepted into the empty buffer; then the
    retry timer of the first fires.  The buffer was within the capacity
    before the callback ran, and holds two items after it. *)
Theorem retry_reinsertion_exceeds_maxSize :
  run demo_overflow_acts (demo_world 1) = Some demo_after_fire
  ∧ within_capacity demo_before_fire
  ∧ fire 0 demo_before_fire = Some demo_after_fire
  ∧ maxSize (queue demo_after_fire) = 1%Z
  ∧ data (queue demo_after_fire) = [0; 2]
  ∧ getLength demo_after_fire = 2
  ∧ ¬ within_capacity demo_after_fire.
Proof.
  split; [by vm_compute|]. split.
  { right. by vm_compute. }
  split; [by vm_compute|]. split; [by vm_compute|].
  split; [by vm_compute|]. split; [by vm_compute|].
  intros [H|H]; vm_compute in H; by apply H.
Qed.

(** ** A handler is called by the listener and by the loop *)

(** The promise of the listener settles: nothing but the log changes. *)
Lemma listener_settles_only_logs i ok w w' :
  listener_settles i ok w = Some w' →
  queue w' = queue w ∧ heap w' = heap w ∧ awaiting w' = awaiting w
  ∧ timeouts w' = timeouts w
  ∧ trace w' = trace w ++ (if ok then [] else [ErrorLogged "handler rejected"]).
Proof.
  unfold listener_settles. destruct (listening w !! i); [|done].
  intros [= <-]. destruct ok; simpl; by rewrite ?app_nil_r.
Qed.

(** When the loop takes an item from the head of the buffer and a handler
    is registered, it calls the handler on that item. *)
Lemma process_loop_calls_handler item rest w h :
  handler (queue w) = Some h →
  ∃ more, trace (process_loop (item :: rest) w)
          = trace w ++ HandlerCalled ViaLoop item :: more.
Proof.
  intros Hh. cbn [process_loop]. simpl. rewrite Hh.
  destruct (h (calls w) item).
  - destruct (process_loop_trace rest
                (on_failure item (or0 (_retries (deref (heap w) item)))
                   (count_call (emit (HandlerCalled ViaLoop item)
                      (on_queue (set_data rest) w))))) as [more ->].
    destruct (on_failure_trace item (or0 (_retries (deref (heap w) item)))
                (count_call (emit (HandlerCalled ViaLoop item)
                   (on_queue (set_data rest) w)))) as (o & -> & _).
    simpl. exists (o :: more). by rewrite <- !app_assoc.
  - by exists [].
Qed.

Lemma addItem_listener_returns (w : world) (h : fn) (A : loc) :
  itemAddedListener (queue w) = Some h → is_full (queue w) = false →
  h (calls w) A = ReturnsPromise →
  addItem (VObj A) w = (processQueue (saveData (accepted A w)), Normal VUndefined).
Proof.
  intros Hl Hfull Hcall. unfold addItem. rewrite Hfull. simpl.
  by rewrite Hl, Hcall.
Qed.

Lemma saveData_rest w :
  awaiting (saveData w) = awaiting w ∧ timeouts (saveData w) = timeouts w
  ∧ calls (saveData w) = calls w
  ∧ (∀ A, handler_calls A (trace (saveData w)) = handler_calls A (trace w))
  ∧ (∀ A, delays A (trace (saveData w)) = delays A (trace w)).
Proof.
  unfold saveData. destruct (writable (disk w)); simpl; repeat split; try done.
  - intros A. rewrite handler_calls_snoc. simpl. by rewrite app_nil_r.
  - intros A. rewrite delays_snoc. simpl. by rewrite app_nil_r.
Qed.

Lemma fresh_counter_is_zero A (h : list obj) :
  or0 (_retries (deref (alter (write_retries 0) A h) A)) = 0.
Proof.
  unfold deref. rewrite list_lookup_alter_eq. by destruct (h !! A).
Qed.

(** An idle loop is started on a buffer that holds just [A], whose
    counter is 0. *)
Lemma processQueue_single (v : world) (h : fn) (A : loc) :
  handler (queue v) = Some h → processing (queue v) = false →
  data (queue v) = [A] → or0 (_retries (deref (heap v) A)) = 0 →
  let v' := processQueue v in
  handler_calls A (trace v') = handler_calls A (trace v) ++ [ViaLoop]
  ∧ data (queue v') = []
  ∧ match h (calls v) A with
    | ReturnsPromise =>
        awaiting v' = Some (Flight A 0)
        ∧ delays A (trace v') = delays A (trace v)
        ∧ timeouts v' = timeouts v
    | SyncThrow =>
        delays A (trace v') = delays A (trace v) ++ [100]
        ∧ t_item <$> timeouts v' = (t_item <$> timeouts v) ++ [A]
    end.
Proof.
  intros Hh Hp Hd Hr. unfold processQueue. rewrite Hp. simpl.
  rewrite Hh, Hd. simpl. rewrite Hh, Hr.
  destruct (h (calls v) A); simpl; read_trace; simpl; try done.
  split; [done|]. split; [done|]. split; [done|].
  by rewrite fmap_app.
Qed.

(** A delivery of [A] that is in flight with an empty buffer fails for the
    first time. *)
Lemma resume_first_failure (v v' : world) (A : loc) :
  awaiting v = Some (Flight A 0) → data (queue v) = [] →
  resume false v = Some v' →
  delays A (trace v') = delays A (trace v) ++ [100]
  ∧ t_item <$> timeouts v' = (t_item <$> timeouts v) ++ [A]
  ∧ handler_calls A (trace v') = handler_calls A (trace v).
Proof.
  intros Ha Hd. unfold resume. rewrite Ha. simpl. intros [= <-].
  rewrite Hd. simpl. read_trace. simpl. by rewrite fmap_app.
Qed.



(** ** The loop is kept going *)

Lemma process_loop_flags d w :
  processing (queue w) = true → awaiting w = None →
  single_flight (process_loop d w) ∧ no_stall (process_loop d w).
Proof.
  revert w. induction d as [|item rest IH]; intros w Hp Ha.
  - split.
    + intros [f Hf]. simpl in Hf. congruence.
    + by intros _.
  - cbn [process_loop]. simpl.
    destruct (handler (queue w)) as [h|].
    + destruct (h (calls w) item).
      * apply IH; by rewrite ?on_failure_queue, ?on_failure_awaiting.
      * split; [by intros _|]. intros Hidle. simpl in Hidle. congruence.
    + destruct (truthy (webhookUrl (queue w))).
      * split; [by intros _|]. intros Hidle. simpl in Hidle. congruence.
      * by apply IH.
Qed.

Lemma processQueue_engine_ok w :
  sink_ok w → single_flight w → engine_ok (processQueue w).
Proof.
  intros Hs Hsf. unfold processQueue.
  destruct (processing (queue w)) eqn:Hp.
  { split; [done|]. split; [done|]. intros Hidle. congruence. }
  assert (awaiting w = None) as Ha.
  { destruct (awaiting w) eqn:Ha; [|done].
    assert (processing (queue w) = true) by (apply Hsf; by rewrite Ha).
    congruence. }
  assert ((negb (bool_decide (is_Some (handler (queue w))))
           && negb (truthy (webhookUrl (queue w)))) = false) as Hsink.
  { destruct Hs as [Hs|Hs].
    - by rewrite bool_decide_true.
    - rewrite Hs. by rewrite andb_false_r. }
  simpl. rewrite Hsink.
  destruct (process_loop_setup (data (queue w)) (on_queue (set_processing true) w))
    as (Hh & Hu & _).
  split; [|by apply process_loop_flags].
  unfold sink_ok. by rewrite Hh, Hu.
Qed.

(** Unless the listener throws, every step leaves the loop running or the
    buffer empty: an item in the buffer is not left waiting for a trigger
    that never comes. *)
Lemma exec_engine_ok a w w' :
  kicking_env w a → engine_ok w → exec a w = Some w' → engine_ok w'.
Proof.
  intros Henv (Hs & Hsf & Hns). destruct a; simpl in *; try done.
  - intros [= <-]. unfold addItem.
    destruct (is_full (queue w)).
    { by destruct item. }
    destruct item as [| | | | |l]; simpl; try done.
    destruct (itemAddedListener (queue w)) as [h|] eqn:Hl.
    + rewrite (Henv h eq_refl).
      apply processQueue_engine_ok; unfold sink_ok, single_flight;
        by rewrite saveData_queue, ?(proj1 (saveData_rest _)).
    + apply processQueue_engine_ok; unfold sink_ok, single_flight;
        by rewrite saveData_queue, ?(proj1 (saveData_rest _)).
  - intros [= <-]. unfold getItem.
    destruct (data (queue w)) as [|x d] eqn:Hd; [done|].
    destruct shift; [|done]. split; [done|]. split; [done|].
    intros Hidle. simpl in *. by rewrite Hns in Hd.
  - intros [= <-]. unfold drain, stopPersistence.
    split; [|split]; unfold sink_ok, single_flight, no_stall; simpl;
      rewrite ?saveData_queue, ?(proj1 (saveData_rest _)); done.
  - intros [= <-]. done.
  - intros [= <-]. done.
  - unfold resume. destruct (awaiting w) as [f|] eqn:Ha; [|done].
    intros [= <-].
    assert (processing (queue w) = true) as Hp by (apply Hsf; by rewrite Ha).
    set (w2 := if ok then set_awaiting None w
               else on_failure (f_item f) (f_retries f) (set_awaiting None w)).
    assert (queue w2 = queue w ∧ awaiting w2 = None) as [Hq Ha2].
    { subst w2. destruct ok; [done|].
      by rewrite on_failure_queue, on_failure_awaiting. }
    destruct (process_loop_setup (data (queue w2)) w2) as (Hh & Hu & _).
    split; [|apply process_loop_flags; by rewrite ?Hq].
    unfold sink_ok. by rewrite Hh, Hu, Hq.
  - unfold listener_settles. destruct (listening w !! i); [|done].
    intros [= <-]. by destruct ok.
  - unfold fire. destruct (timeouts w !! i) as [t|]; [|done].
    destruct (due t <=? clock w); [|done]. intros [= <-].
    by apply processQueue_engine_ok.
  - destruct (persistenceTimer (queue w)); [|done]. intros [= <-].
    split; [|split]; unfold sink_ok, single_flight, no_stall;
      rewrite ?saveData_queue, ?(proj1 (saveData_rest _)); done.
  - intros [= <-]. done.
Qed.

Lemma runs_engine_ok w acts w' :
  runs kicking_env w acts w' → engine_ok w → engine_ok w'.
Proof.
  induction 1 as [|w a w1 acts w2 Henv Hexec _ IH]; [done|].
  intros Hok. apply IH. by eapply exec_engine_ok.
Qed.

(** * The scenarios, computed *)

Lemma demo_world_created max :
  (0 ≤ max)%Z →
  constructor "uuid" demo_heap demo_fs "jobs" 0 "queues" max = inr (demo_world max).
Proof.
  intros Hmax. unfold constructor.
  change (String.eqb "jobs" "") with false.
  change (0 <? 0)%Z with false. cbv iota.
  by rewrite (proj2 (Z.ltb_ge max 0) Hmax).
Qed.

Lemma demo_world_no_sink max : no_sink (demo_world max).
Proof. repeat split; vm_compute; reflexivity. Qed.

(** The scenario of the specification: [maxSize = 2], three submissions.
    The objects in the buffer carry the counter the engine gave them, the
    discarded one is as the caller made it. *)
Example overflow_scenario :
  let w := submit_all [VObj 0; VObj 1; VObj 2] (demo_world 2) in
  let r1 := getItem true w in
  let r2 := getItem false r1.1 in
  getLength w = 2
  ∧ getDiscardedItems w = [VObj 2]
  ∧ deref (heap w) 2 = Obj [("id", JNum 3)] None
  ∧ r1.2 = VObj 0
  ∧ deref (heap w) 0 = Obj [("id", JNum 1)] (Some 0)
  ∧ getLength r1.1 = 1
  ∧ r2.2 = VObj 1
  ∧ deref (heap w) 1 = Obj [("id", JNum 2)] (Some 0)
  ∧ getLength r2.1 = 1.
Proof. vm_compute. repeat split. Qed.

(** [fifo_order] on a new unbounded queue and three objects. *)
Lemma fifo_order_witness :
  no_sink (demo_world 0)
  ∧ (take_n 3 (submit_all [VObj 0; VObj 1; VObj 2] (demo_world 0))).2
    = [VObj 0; VObj 1; VObj 2].
Proof.
  split; [apply demo_world_no_sink|].
  pose proof (fifo_order (demo_world 0) [0; 1; 2] (demo_world_no_sink 0)) as H.
  destruct H as (_ & H & _); [vm_compute; reflexivity|].
  exact H.
Defined.

(** [overflow_rejects_new] on the scenario of the specification. *)
Lemma overflow_rejects_new_witness :
  maxSize (queue (demo_world 2)) = 2%Z
  ∧ data (queue (submit_all [VObj 0; VObj 1; VObj 2] (demo_world 2))) = [0; 1]
  ∧ discardedItems (queue (submit_all [VObj 0; VObj 1; VObj 2] (demo_world 2)))
    = [VObj 2].
Proof.
  split; [vm_compute; reflexivity|].
  assert (data (queue (demo_world 2)) = []) as H1 by (vm_compute; reflexivity).
  assert (discardedItems (queue (demo_world 2)) = []) as H2
    by (vm_compute; reflexivity).
  assert (maxSize (queue (demo_world 2)) = Z.of_nat 2) as H3
    by (vm_compute; reflexivity).
  pose proof (overflow_rejects_new (demo_world 2) 2 [0; 1] 2
                (demo_world_no_sink 2) H1 H2 H3
                (Nat.lt_0_succ 1) eq_refl) as H.
  destruct H as (_ & Hd & Hx & _). split; assumption.
Defined.



(** [retried_item_goes_first]: object 2 waits in the buffer when the timer
    of object 0 fires, object 1 being in flight. *)
Lemma retried_item_goes_first_witness :
  data (queue demo_before_fire) = [2]
  ∧ timeouts demo_before_fire = [Timer 100 0]
  ∧ data (queue demo_after_fire) = [0; 2]
  ∧ ∃ suffix, trace demo_after_settle = trace demo_before_fire ++ suffix
      ∧ first_attempt 0 2 suffix ≠ Some 2.
Proof.
  assert (data (queue demo_before_fire) = [2]) as Hd by (vm_compute; reflexivity).
  assert (sink_ok demo_before_fire) as Hs.
  { right. vm_compute. reflexivity. }
  assert (single_flight demo_before_fire) as Hsf.
  { intros _. vm_compute. reflexivity. }
  assert (timeouts demo_before_fire !! 0 = Some (Timer 100 0)) as Hi
    by (vm_compute; reflexivity).
  assert (2 ∈ data (queue demo_before_fire)) as HB.
  { rewrite Hd. apply list_elem_of_here. }
  assert (¬ in_flight 2 demo_before_fire) as Hnf.
  { intros [r Hr]. vm_compute in Hr. discriminate. }
  assert (timers_of 2 demo_before_fire = 0) as Ht by (vm_compute; reflexivity).
  assert (fire 0 demo_before_fire = Some demo_after_fire) as Hfire
    by (vm_compute; reflexivity).
  assert (runs engine_env demo_after_fire [Settle true] demo_after_settle)
    as Hruns.
  { apply runs_of_run; [|vm_compute; reflexivity].
    repeat (apply Forall_cons; split; [intros v; simpl; auto|]).
    constructor. }
  pose proof (retried_item_goes_first 0 2 0 (Timer 100 0) demo_before_fire
                demo_after_fire demo_after_settle [Settle true]
                (Nat.neq_0_succ 1) Hs Hsf Hi eq_refl HB Hnf Ht Hfire Hruns) as H.
  destruct H as (_ & suffix & Htr & Hfa & _).
  split; [exact Hd|]. split; [vm_compute; reflexivity|].
  split; [vm_compute; reflexivity|].
  exists suffix. split; assumption.
Defined.

(** [sink_mutual_exclusion] on a queue with a handler and on a queue with
    a webhook. *)
Lemma sink_mutual_exclusion_witness :
  registerWebhook (VStr "http://other") (VStr "key") "post"
    (demo_handler_world always_returns)
  = (demo_handler_world always_returns,
     Rejects (Error
       "Cannot register a webhook when a handler is already registered."))
  ∧ registerHandler (Function always_throws) demo_webhook_world
    = (demo_webhook_world,
       Throws (Error
         "Cannot register a handler when a webhook is already registered.")).
Proof.
  assert (handler (queue (demo_handler_world always_returns))
          = Some always_returns) as Hh by (vm_compute; reflexivity).
  assert (truthy (webhookUrl (queue demo_webhook_world)) = true) as Hu
    by (vm_compute; reflexivity).
  pose proof (sink_mutual_exclusion (demo_handler_world always_returns)
                demo_webhook_world always_returns Hh Hu) as H.
  destruct H as (_ & Hweb & _ & Hhan).
  split; [apply Hweb; vm_compute; reflexivity | apply Hhan].
Defined.


(** C6, as stated, fails twice.  [registerWebhook] is an [async] method:
    with a handler registered its error is the rejection of the promise
    it returns, not an exception thrown by the call.  And a webhook
    registered under the empty URL does not count as registered:
    [registerHandler] goes through and replaces it. *)
Lemma mutual_exclusion_counterexample :
  is_Some (handler (queue (demo_handler_world always_returns)))
  ∧ (¬ ∃ e, (registerWebhook (VStr "http://sink") (VStr "key") "POST"
               (demo_handler_world always_returns)).2 = Throws e)
  ∧ (registerWebhook (VStr "") (VStr "key") "POST" (demo_world 0)).2
    = Normal VUndefined
  ∧ webhookUrl (queue demo_empty_url_world) = Some ""
  ∧ (registerHandler (Function always_returns) demo_empty_url_world).2
    = Normal VUndefined
  ∧ webhookUrl (queue (registerHandler (Function always_returns)
                         demo_empty_url_world).1) = None.
Proof.
  split.
  { eexists. vm_compute. reflexivity. }
  split.
  { intros [e He]. vm_compute in He. discriminate. }
  repeat split; vm_compute; reflexivity.
Qed.


(** C4, as stated, fails.  [B] is in the buffer while [A] is in flight.
    [A] fails and is scheduled for a retry; the loop goes on and takes [B]
    at once.  When the backoff of [A] has elapsed and its timer runs, [B]
    is still pending: its delivery is in flight.  [A] waits in the buffer
    until the delivery of [B] has settled.  The loop has attempted [A],
    [B], [A], in this order. *)
Lemma newer_item_delivered_first_counterexample :
  (awaiting demo_order_submitted = Some (Flight 0 0)
   ∧ data (queue demo_order_submitted) = [1])
  ∧ (timeouts demo_order_failed = [Timer 100 0]
     ∧ awaiting demo_order_failed = Some (Flight 1 0))
  ∧ (clock demo_order_fired = 100
     ∧ data (queue demo_order_fired) = [0]
     ∧ awaiting demo_order_fired = Some (Flight 1 0))
  ∧ attempt_order (trace demo_order_settled) = [0; 1; 0]
  ∧ first_attempt 0 1
      (drop (length (trace demo_order_submitted)) (trace demo_order_settled))
    = Some 1.
Proof. vm_compute. repeat split. Qed.

(** * Further properties *)

(** ** What a run leaves as it is *)

Lemma settings_eq q q' :
  settings q = settings q' →
  name q = name q' ∧ _uuid q = _uuid q' ∧ handler q = handler q'
  ∧ webhookUrl q = webhookUrl q' ∧ webhookMethod q = webhookMethod q'
  ∧ webhookApiKey q = webhookApiKey q'
  ∧ itemAddedListener q = itemAddedListener q'
  ∧ persistenceInterval q = persistenceInterval q'
  ∧ persistenceDirectory q = persistenceDirectory q'
  ∧ persistenceFilename q = persistenceFilename q'
  ∧ persistenceTimer q = persistenceTimer q'
  ∧ maxSize q = maxSize q' ∧ discardedItems q = discardedItems q'.
Proof.
  destruct q, q'. unfold settings. simpl. intros [= -> -> -> -> -> -> -> -> -> -> -> -> ->].
  repeat split.
Qed.

Lemma settings_set_data d q : settings (set_data d q) = settings q.
Proof. by destruct q. Qed.

Lemma settings_set_processing b q : settings (set_processing b q) = settings q.
Proof. by destruct q. Qed.

Lemma fields_write_retries n item h l :
  fields (deref (alter (write_retries n) item h) l) = fields (deref h l).
Proof.
  unfold deref. destruct (decide (item = l)) as [->|Hne].
  - rewrite list_lookup_alter_eq. by destruct (h !! l).
  - by rewrite list_lookup_alter_ne.
Qed.

Lemma quiet_refl w : quiet w w.
Proof. by constructor. Qed.

Lemma quiet_trans w1 w2 w3 : quiet w1 w2 → quiet w2 w3 → quiet w1 w3.
Proof.
  intros [Hs1 Hd1 Hc1 Hl1 Hn1 Hf1 Ht1] [Hs2 Hd2 Hc2 Hl2 Hn2 Hf2 Ht2].
  constructor; try congruence; [by etrans].
Qed.

Lemma on_failure_quiet item r w : quiet w (on_failure item r w).
Proof.
  unfold on_failure. destruct (r <? MAX_RETRIES); constructor; simpl; try done.
  - by rewrite length_alter.
  - intros l. apply fields_write_retries.
  - by apply prefix_app_r.
  - by apply prefix_app_r.
Qed.

Ltac quiet_step :=
  constructor; simpl; try done; try (by apply prefix_app_r).

Lemma process_loop_quiet d w : quiet w (process_loop d w).
Proof.
  revert w. induction d as [|item rest IH]; intros w; [quiet_step|].
  cbn [process_loop]. simpl.
  destruct (handler (queue w)) as [h|].
  - destruct (h (calls w) item); [|quiet_step].
    eapply quiet_trans; [|apply IH].
    eapply quiet_trans; [|apply on_failure_quiet]. quiet_step.
  - destruct (truthy (webhookUrl (queue w))); [quiet_step|].
    eapply quiet_trans; [|apply IH]. quiet_step.
Qed.

Lemma processQueue_quiet w : quiet w (processQueue w).
Proof.
  unfold processQueue. destruct (processing (queue w)) eqn:Hp; [apply quiet_refl|].
  destruct (_ && _); [quiet_step|].
  eapply quiet_trans; [|apply process_loop_quiet]. quiet_step.
Qed.

Lemma evolves_refl w : evolves w w.
Proof. by constructor. Qed.

Lemma evolves_trans w1 w2 w3 : evolves w1 w2 → evolves w2 w3 → evolves w1 w3.
Proof.
  intros H1 H2. destruct H1, H2.
  constructor; try congruence; try (by etrans); try (by auto).
  intros p Hp. etrans; [apply ev_files1; congruence|by apply ev_files0].
Qed.

Lemma quiet_evolves w w' : quiet w w' → evolves w w'.
Proof.
  intros [Hs Hd Hc Hl Hlen Hf Ht].
  destruct (settings_eq _ _ Hs) as (?&?&Hh&?&?&?&?&?&?&?&Hpt&?&Hdi).
  constructor; try done; try congruence; try lia;
    try (by rewrite ?Hdi, ?Hd, ?Hh).
Qed.

Ltac evolves_step :=
  constructor; simpl; try done; try (by apply prefix_app_r); try lia.

Lemma saveData_evolves w : evolves w (saveData w).
Proof.
  unfold saveData. destruct (writable (disk w)) eqn:Hw; evolves_step.
  intros p Hp. by rewrite lookup_insert_ne.
Qed.

Lemma addItem_evolves item w : evolves w (addItem item w).1.
Proof.
  unfold addItem.
  destruct (is_full (queue w)).
  { destruct item; simpl; try apply evolves_refl; evolves_step. }
  destruct item as [| | | | |l]; simpl; try apply evolves_refl.
  assert (evolves w
            (emit (Emitted "itemAdded" (VObj l))
               (on_queue (λ q, set_data (data q ++ [l]) q)
                  (set_heap (alter (write_retries 0) l (heap w)) w)))) as H3.
  { evolves_step; [by rewrite length_alter|].
    intros x. apply fields_write_retries. }
  destruct (itemAddedListener (queue w)) as [h|].
  - destruct (h (calls w) l); simpl.
    + eapply evolves_trans; [apply H3|]. evolves_step.
    + eapply evolves_trans; [|apply quiet_evolves, processQueue_quiet].
      eapply evolves_trans; [|apply saveData_evolves].
      eapply evolves_trans; [apply H3|]. evolves_step.
  - simpl. eapply evolves_trans; [|apply quiet_evolves, processQueue_quiet].
    eapply evolves_trans; [|apply saveData_evolves]. apply H3.
Qed.

Lemma exec_evolves a w w' : exec a w = Some w' → evolves w w'.
Proof.
  destruct a; simpl.
  - intros [= <-]. apply addItem_evolves.
  - intros [= <-]. unfold getItem.
    destruct (data (queue w)); [apply evolves_refl|].
    destruct shift; [|apply evolves_refl]. evolves_step.
  - intros [= <-]. unfold registerHandler.
    destruct cb as [v|f]; [apply evolves_refl|].
    destruct (truthy _); [apply evolves_refl|]. simpl.
    eapply evolves_trans; [|apply quiet_evolves, processQueue_quiet].
    evolves_step.
  - intros [= <-]. unfold registerWebhook.
    destruct url, apiKey; try apply evolves_refl.
    destruct (negb _); [apply evolves_refl|].
    destruct (bool_decide _) eqn:Hh; [apply evolves_refl|]. simpl.
    eapply evolves_trans; [|apply quiet_evolves, processQueue_quiet].
    evolves_step.
    intros Hs. by apply bool_decide_eq_false in Hh.
  - intros [= <-]. unfold drain, stopPersistence.
    apply (evolves_trans _ (on_queue (set_data []) w)); [evolves_step|].
    apply (evolves_trans _ (saveData (on_queue (set_data []) w)));
      [apply saveData_evolves|evolves_step].
  - intros [= <-]. evolves_step.
  - intros [= <-]. evolves_step.
  - unfold resume. destruct (awaiting w) as [f|]; [|done]. intros [= <-].
    eapply evolves_trans; [|apply quiet_evolves, process_loop_quiet].
    destruct ok; [evolves_step|].
    eapply evolves_trans; [|apply quiet_evolves, on_failure_quiet].
    evolves_step.
  - unfold listener_settles. destruct (listening w !! i); [|done].
    intros [= <-]. destruct ok; evolves_step.
  - unfold fire. destruct (timeouts w !! i) as [t|]; [|done].
    destruct (due t <=? clock w); [|done]. intros [= <-].
    eapply evolves_trans; [|apply quiet_evolves, processQueue_quiet].
    evolves_step.
  - destruct (persistenceTimer (queue w)); [|done]. intros [= <-].
    apply saveData_evolves.
  - intros [= <-]. evolves_step.
Qed.

Lemma run_evolves acts w w' : run acts w = Some w' → evolves w w'.
Proof.
  revert w. induction acts as [|a acts IH]; intros w; simpl.
  - intros [= <-]. apply evolves_refl.
  - destruct (exec a w) as [v|] eqn:Hx; [|done]. intros Hr.
    eapply evolves_trans; [by eapply exec_evolves|by apply IH].
Qed.

(** ** Well-formed states *)

Lemma backoff_delay r : r < MAX_RETRIES → 2 ^ r * 100 ∈ backoffs.
Proof.
  unfold MAX_RETRIES, backoffs. intros Hr.
  do 5 (destruct r as [|r]; [simpl; rewrite !elem_of_cons; tauto|]). lia.
Qed.

Lemma on_failure_wf item r w :
  Forall obs_wf (trace w) → Forall obs_wf (trace (on_failure item r w)).
Proof.
  intros Hwf. unfold on_failure. destruct (r <? MAX_RETRIES) eqn:Hr; simpl;
    apply Forall_app; (split; [done|]); apply Forall_singleton; simpl; [|done].
  apply backoff_delay. by apply Nat.ltb_lt.
Qed.

Lemma webhook_request_wf item w :
  sink_wf (queue w) → truthy (webhookUrl (queue w)) = true →
  obs_wf (webhook_request item w).
Proof.
  intros [_ _ Hkey Hm] Hurl. unfold webhook_request. simpl.
  destruct (webhookUrl (queue w)) as [u|]; [|done]. simpl in *.
  split; [done|]. split.
  { apply negb_true_iff, String.eqb_neq in Hurl. done. }
  split; [by apply Hkey|].
  destruct (String.eqb (webhookMethod (queue w)) "POST") eqn:Hp.
  - apply String.eqb_eq in Hp. by split.
  - apply String.eqb_neq in Hp. split; [by intros [? ?]|done].
Qed.

Lemma sink_wf_settings q q' : settings q' = settings q → sink_wf q → sink_wf q'.
Proof.
  intros Hs [H1 H2 H3 H4].
  destruct (settings_eq _ _ Hs) as (_&_&Hh&Hu&Hm&Hk&Hl&_).
  constructor; rewrite ?Hh, ?Hu, ?Hm, ?Hk, ?Hl; done.
Qed.

Lemma process_loop_wf d w :
  sink_wf (queue w) → Forall obs_wf (trace w) →
  Forall obs_wf (trace (process_loop d w)).
Proof.
  revert w. induction d as [|item rest IH]; intros w Hs Ht; [done|].
  cbn [process_loop]. simpl.
  destruct (handler (queue w)) as [h|] eqn:Hh.
  - destruct (h (calls w) item).
    + apply IH.
      * rewrite on_failure_queue. simpl. by apply (sink_wf_settings (queue w)).
      * apply on_failure_wf. simpl. apply Forall_app. split; [done|].
        by apply Forall_singleton.
    + simpl. apply Forall_app. split; [done|]. by apply Forall_singleton.
  - destruct (truthy (webhookUrl (queue w))) eqn:Hu.
    + simpl. apply Forall_app. split; [done|]. apply Forall_singleton.
      apply webhook_request_wf; simpl; [|done].
      by apply (sink_wf_settings (queue w)).
    + apply IH; simpl; [|done]. by apply (sink_wf_settings (queue w)).
Qed.

Lemma process_loop_flag d w :
  awaiting w = None → processing (queue w) = true →
  loop_flag (process_loop d w).
Proof.
  revert w. induction d as [|item rest IH]; intros w Ha Hp.
  - unfold loop_flag. simpl. rewrite Ha. split; [done|by intros [? ?]].
  - cbn [process_loop]. simpl.
    destruct (handler (queue w)) as [h|].
    + destruct (h (calls w) item).
      * apply IH; [by rewrite on_failure_awaiting|by rewrite on_failure_queue].
      * unfold loop_flag. simpl. split; [by eexists|done].
    + destruct (truthy (webhookUrl (queue w))).
      * unfold loop_flag. simpl. split; [by eexists|done].
      * by apply IH.
Qed.

Lemma loop_flag_idle w :
  loop_flag w → processing (queue w) = false → awaiting w = None.
Proof.
  intros [_ H] Hp. destruct (awaiting w); [|done].
  rewrite H in Hp; [done|by eexists].
Qed.

Lemma processQueue_wellformed w : wellformed w → wellformed (processQueue w).
Proof.
  intros (Hf & Hs & Ht).
  pose proof (processQueue_quiet w) as Hq.
  split; [|split].
  - unfold processQueue. destruct (processing (queue w)) eqn:Hp; [done|].
    pose proof (loop_flag_idle w Hf Hp) as Ha.
    destruct (_ && _).
    + unfold loop_flag. simpl. rewrite Ha. split; [done|by intros [? ?]].
    + by apply process_loop_flag.
  - apply (sink_wf_settings (queue w)); [apply Hq|done].
  - unfold processQueue. destruct (processing (queue w)); [done|].
    destruct (_ && _); [done|].
    apply process_loop_wf; [by apply (sink_wf_settings (queue w))|done].
Qed.

Lemma saveData_wellformed w : wellformed w → wellformed (saveData w).
Proof.
  intros (Hf & Hs & Ht). unfold saveData.
  destruct (writable (disk w)); [done|].
  split; [done|]. split; [done|]. simpl.
  apply Forall_app. split; [done|]. by apply Forall_singleton.
Qed.

Lemma wellformed_frame w w' more :
  settings (queue w') = settings (queue w) →
  processing (queue w') = processing (queue w) →
  awaiting w' = awaiting w →
  trace w' = trace w ++ more → Forall obs_wf more →
  wellformed w → wellformed w'.
Proof.
  intros Hs Hp Ha Ht Hm (Hf & Hk & Hw). split; [|split].
  - unfold loop_flag. by rewrite Hp, Ha.
  - by apply (sink_wf_settings (queue w)).
  - rewrite Ht. by apply Forall_app.
Qed.

Lemma addItem_wellformed item w : wellformed w → wellformed (addItem item w).1.
Proof.
  intros Hwf. unfold addItem.
  destruct (is_full (queue w)).
  { destruct item; simpl; try done;
      (destruct Hwf as (Hf & [] & Ht); split; [done|]; split; [by constructor|];
       simpl; apply Forall_app; split; [done|]; by apply Forall_singleton). }
  destruct item as [| | | | |l]; simpl; try done.
  destruct (itemAddedListener (queue w)) as [h|].
  - destruct (h (calls w) l); simpl.
    + eapply (wellformed_frame w _ [_; _]); try done.
      * simpl. by rewrite <- app_assoc.
      * by repeat constructor.
    + apply processQueue_wellformed, saveData_wellformed.
      eapply (wellformed_frame w _ [_; _]); try done.
      * simpl. by rewrite <- app_assoc.
      * by repeat constructor.
  - simpl. apply processQueue_wellformed, saveData_wellformed.
    eapply (wellformed_frame w _ [_]); try done. by repeat constructor.
Qed.

Lemma exec_wellformed a w w' :
  exec a w = Some w' → wellformed w → wellformed w'.
Proof.
  destruct a; simpl.
  - intros [= <-]. apply addItem_wellformed.
  - intros [= <-] Hwf. unfold getItem.
    destruct (data (queue w)); [done|]. destruct shift; [|done].
    eapply (wellformed_frame w _ []); try done. simpl. by rewrite app_nil_r.
  - intros [= <-] Hwf. unfold registerHandler.
    destruct cb as [v|f]; [done|].
    destruct (truthy _); [done|]. simpl.
    apply processQueue_wellformed.
    destruct Hwf as (Hf & [H1 H2 H3 H4] & Ht).
    split; [done|]. split; [|done].
    constructor; simpl; try done; by intros [? ?].
  - intros [= <-] Hwf. unfold registerWebhook.
    destruct url, apiKey; try done.
    destruct (negb _) eqn:Hm; [done|].
    destruct (bool_decide _) eqn:Hh; [done|]. simpl.
    apply processQueue_wellformed.
    destruct Hwf as (Hf & [H1 H2 H3 H4] & Ht).
    split; [done|]. split; [|done].
    apply bool_decide_eq_false in Hh.
    constructor; simpl.
    + by intros [? ?].
    + intros h Hl. exfalso. apply Hh. rewrite (H2 h Hl). by eexists.
    + intros _. by eexists.
    + apply negb_false_iff, orb_true_iff in Hm.
      destruct Hm as [Hm%String.eqb_eq | Hm%String.eqb_eq]; auto.
  - intros [= <-] Hwf. unfold drain, stopPersistence.
    pose proof (saveData_wellformed (on_queue (set_data []) w)) as Hsv.
    destruct Hsv as (Hf & [H1 H2 H3 H4] & Ht).
    { eapply (wellformed_frame w _ []); try done. simpl. by rewrite app_nil_r. }
    split; [done|]. split; [by constructor|done].
  - intros [= <-] (Hf & [H1 H2 H3 H4] & Ht).
    split; [done|]. split; [by constructor|done].
  - intros [= <-] (Hf & [H1 H2 H3 H4] & Ht).
    split; [done|]. split; [by constructor|done].
  - unfold resume. destruct (awaiting w) as [f|] eqn:Ha; [|done].
    intros [= <-] (Hf & Hs & Ht).
    assert (processing (queue w) = true) as Hp.
    { apply Hf. rewrite Ha. by eexists. }
    pose proof (process_loop_quiet
      (data (queue (if ok then set_awaiting None w
                    else on_failure (f_item f) (f_retries f) (set_awaiting None w))))
      (if ok then set_awaiting None w
       else on_failure (f_item f) (f_retries f) (set_awaiting None w))) as Hq.
    destruct ok.
    + split; [by apply process_loop_flag|]. split; [|by apply process_loop_wf].
      apply (sink_wf_settings (queue w)); [apply Hq|done].
    + split; [|split].
      * apply process_loop_flag;
          [by rewrite on_failure_awaiting|by rewrite on_failure_queue].
      * apply (sink_wf_settings (queue w)); [|done].
        destruct Hq as [-> _ _ _ _ _ _]. by rewrite on_failure_queue.
      * apply process_loop_wf; [by rewrite on_failure_queue|].
        by apply on_failure_wf.
  - unfold listener_settles. destruct (listening w !! i); [|done].
    intros [= <-] Hwf. destruct ok.
    + eapply (wellformed_frame w _ []); try done. simpl. by rewrite app_nil_r.
    + eapply (wellformed_frame w _ [_]); try done. by repeat constructor.
  - unfold fire. destruct (timeouts w !! i) as [t|]; [|done].
    destruct (due t <=? clock w); [|done]. intros [= <-] Hwf.
    apply processQueue_wellformed.
    eapply (wellformed_frame w _ []); try done. simpl. by rewrite app_nil_r.
  - destruct (persistenceTimer (queue w)); [|done]. intros [= <-].
    apply saveData_wellformed.
  - intros [= <-] Hwf.
    eapply (wellformed_frame w _ []); try done. simpl. by rewrite app_nil_r.
Qed.

Lemma run_wellformed acts w w' :
  run acts w = Some w' → wellformed w → wellformed w'.
Proof.
  revert w. induction acts as [|a acts IH]; intros w; simpl.
  - by intros [= <-].
  - destruct (exec a w) as [v|] eqn:Hx; [|done]. intros Hr Hwf.
    apply (IH v Hr). by apply (exec_wellformed a w).
Qed.

(** ** Construction *)

Lemma loadData_rest w :
  settings (queue (loadData w)) = settings (queue w)
  ∧ processing (queue (loadData w)) = processing (queue w)
  ∧ disk (loadData w) = disk w ∧ awaiting (loadData w) = awaiting w
  ∧ listening (loadData w) = listening w ∧ timeouts (loadData w) = timeouts w
  ∧ clock (loadData w) = clock w ∧ calls (loadData w) = calls w
  ∧ trace (loadData w) = trace w
  ∧ heap w `prefix_of` heap (loadData w).
Proof.
  unfold loadData.
  destruct (files (disk w) !! persistenceFilename (queue w)) as [[| |parsed]|];
    simpl; try done.
  destruct (_ && _)%Z; simpl; repeat split; try done; by apply prefix_app_r.
Qed.

Lemma initial_world_fresh uuid h fs nm interval dir max :
  let w := initial_world uuid h fs nm interval dir max in
  settings (queue w)
  = Queue nm uuid [] None None "POST" None None interval dir
      (path_join dir (nm +:+ ".json"))
      (if (0 <? interval)%Z then Some interval else None) max [] false
  ∧ processing (queue w) = false ∧ awaiting w = None ∧ timeouts w = []
  ∧ listening w = [] ∧ trace w = [] ∧ clock w = 0 ∧ calls w = 0
  ∧ files (disk w) = files fs ∧ writable (disk w) = writable fs
  ∧ dir ∈ dirs (disk w) ∧ dirs fs ⊆ dirs (disk w)
  ∧ h `prefix_of` heap w
  ∧ within_capacity w.
Proof.
  unfold initial_world, initializePersistence. cbv zeta.
  set (b := blank_world uuid h fs nm interval dir max).
  set (w1 := if decide (persistenceDirectory (queue b) ∈ dirs (disk b)) then b
             else set_disk (Fs ({[persistenceDirectory (queue b)]} ∪ dirs (disk b))
                              (files (disk b)) (writable (disk b))) b).
  assert (queue w1 = queue b ∧ heap w1 = h ∧ awaiting w1 = None
          ∧ timeouts w1 = [] ∧ listening w1 = [] ∧ trace w1 = []
          ∧ clock w1 = 0 ∧ calls w1 = 0
          ∧ files (disk w1) = files fs ∧ writable (disk w1) = writable fs
          ∧ dir ∈ dirs (disk w1) ∧ dirs fs ⊆ dirs (disk w1)) as H1.
  { unfold w1. destruct (decide _) as [Hin|Hin]; simpl in *;
      repeat split; try done; set_solver. }
  destruct H1 as (Hq & Hh & Ha & Ht & Hl & Htr & Hc & Hca & Hfi & Hwr & Hd1 & Hd2).
  destruct (loadData_rest w1)
    as (Ls & Lp & Ld & La & Ll & Lt & Lc & Lca & Ltr & Lh).
  pose proof (loadData_within_capacity w1) as Hcap.
  rewrite Hq in Ls, Lp. rewrite Hh in Lh.
  change (persistenceInterval (queue b)) with interval.
  destruct (0 <? interval)%Z; simpl;
    rewrite ?Ld, ?La, ?Ll, ?Lt, ?Lc, ?Lca, ?Ltr;
    repeat split; try done.
  - unfold settings in *. simpl. destruct (queue (loadData w1)).
    simpl in *. by injection Ls as -> -> -> -> -> -> -> -> -> -> -> -> ->.
Qed.


Lemma initial_world_wellformed uuid h fs nm interval dir max :
  wellformed (initial_world uuid h fs nm interval dir max).
Proof.
  destruct (initial_world_fresh uuid h fs nm interval dir max)
    as (Hs & Hp & Ha & Ht & Hl & Htr & _).
  set (w := initial_world uuid h fs nm interval dir max) in *.
  assert (settings (queue w) = settings
            (Queue nm uuid [] None None "POST" None None interval dir
               (path_join dir (nm +:+ ".json"))
               (if (0 <? interval)%Z then Some interval else None) max [] false))
    as Hs' by done.
  split; [|split].
  - unfold loop_flag. rewrite Hp, Ha. split; [done|by intros [? ?]].
  - apply (sink_wf_settings _ _ Hs').
    constructor; simpl; try done; try (by intros [? ?]). by right.
  - rewrite Htr. constructor.
Qed.

Lemma constructor_initial uuid h fs nm interval dir max w :
  constructor uuid h fs nm interval dir max = inr w →
  w = initial_world uuid h fs nm interval dir max.
Proof.
  unfold constructor. destruct (String.eqb nm ""); [done|].
  destruct (interval <? 0)%Z; [done|]. destruct (max <? 0)%Z; [done|].
  by intros [= <-].
Qed.

Lemma reachable_wellformed uuid h fs nm interval dir max w0 acts w :
  constructor uuid h fs nm interval dir max = inr w0 →
  run acts w0 = Some w → wellformed w.
Proof.
  intros Hc%constructor_initial Hr. subst w0.
  apply (run_wellformed acts _ w Hr), initial_world_wellformed.
Qed.

(** X7. In every state a queue can reach from its construction, the
    [processing] flag is set exactly when the loop is suspended at its
    [await].  So the flag is never left set by a loop that has ended;
    while it is set a call of [processQueue] returns at once, and the
    settlement of the delivery in flight resumes the loop. *)
Theorem processing_flag_tracks_the_await uuid h fs nm interval dir max
    (w0 w : world) (acts : list action) :
  constructor uuid h fs nm interval dir max = inr w0 →
  run acts w0 = Some w →
  (processing (queue w) = true ↔ is_Some (awaiting w))
  ∧ (processing (queue w) = true →
       processQueue w = w ∧ ∀ ok, is_Some (exec (Settle ok) w)).
Proof.
  intros Hc Hr.
  destruct (reachable_wellformed _ _ _ _ _ _ _ _ _ _ Hc Hr) as (Hf & _).
  split; [done|]. intros Hp. split.
  - unfold processQueue. by rewrite Hp.
  - intros ok. apply Hf in Hp as [f Hf']. simpl. unfold resume. by rewrite Hf'.
Qed.

(** X5. In every state a queue can reach from its construction: when a
    handler is set, URL and key are [null]; the ['itemAdded'] listener,
    when there is one, calls the handler that is currently registered;
    when a URL is set there is neither handler nor listener, and a key is
    set; the method is GET or POST. *)
Theorem sinks_stay_exclusive uuid h fs nm interval dir max
    (w0 w : world) (acts : list action) :
  constructor uuid h fs nm interval dir max = inr w0 →
  run acts w0 = Some w →
  (is_Some (handler (queue w)) →
     webhookUrl (queue w) = None ∧ webhookApiKey (queue w) = None)
  ∧ (∀ f, itemAddedListener (queue w) = Some f → handler (queue w) = Some f)
  ∧ (is_Some (webhookUrl (queue w)) →
       handler (queue w) = None ∧ itemAddedListener (queue w) = None
       ∧ is_Some (webhookApiKey (queue w)))
  ∧ (webhookMethod (queue w) = "GET" ∨ webhookMethod (queue w) = "POST").
Proof.
  intros Hc Hr.
  destruct (reachable_wellformed _ _ _ _ _ _ _ _ _ _ Hc Hr)
    as (_ & [H1 H2 H3 H4] & _).
  repeat split; try done; try (by apply H1); try (by apply H3).
  - destruct (handler (queue w)) as [f|] eqn:Hh; [|done].
    destruct H1 as [Hu _]; [by eexists|]. rewrite Hu in H. by destruct H.
  - destruct (itemAddedListener (queue w)) as [f|] eqn:Hl; [|done].
    pose proof (H2 f eq_refl) as Hh.
    destruct H1 as [Hu _]; [by eexists|]. rewrite Hu in H. by destruct H.
Qed.

(** X9. Every webhook request a queue ever sends has method GET or
    POST, a non-empty URL and an API key, and carries a body exactly when
    the method is POST. *)
Theorem webhook_requests_are_complete uuid h fs nm interval dir max
    (w0 w : world) (acts : list action) item m u k b :
  constructor uuid h fs nm interval dir max = inr w0 →
  run acts w0 = Some w →
  WebhookRequested item m u k b ∈ trace w →
  (m = "GET" ∨ m = "POST") ∧ u ≠ "" ∧ is_Some k ∧ (is_Some b ↔ m = "POST").
Proof.
  intros Hc Hr Hin.
  destruct (reachable_wellformed _ _ _ _ _ _ _ _ _ _ Hc Hr) as (_ & _ & Ht).
  rewrite Forall_forall in Ht. apply (Ht _ Hin).
Qed.


(** X17. No run changes the name, the identifier ([getUUID]), the
    capacity ([getMaxSize]), the interval, the directory or the file name
    of a queue; none creates or removes a directory, and none touches a
    file other than the snapshot of the queue. *)
Theorem identity_and_foreign_files_untouched (w w' : world) (acts : list action) :
  run acts w = Some w' →
  (name (queue w') = name (queue w) ∧ getUUID w' = getUUID w
   ∧ getMaxSize w' = getMaxSize w
   ∧ persistenceInterval (queue w') = persistenceInterval (queue w)
   ∧ persistenceDirectory (queue w') = persistenceDirectory (queue w)
   ∧ persistenceFilename (queue w') = persistenceFilename (queue w))
  ∧ dirs (disk w') = dirs (disk w)
  ∧ ∀ p, p ≠ persistenceFilename (queue w) →
      files (disk w') !! p = files (disk w) !! p.
Proof.
  intros Hr. destruct (run_evolves acts w w' Hr).
  unfold getUUID, getMaxSize. by repeat split.
Qed.

(** X18. No run creates or removes an object, and none changes the
    payload of an object: the engine writes [_retries] only. *)
Theorem payload_is_never_modified (w w' : world) (acts : list action) (l : loc) :
  run acts w = Some w' →
  length (heap w') = length (heap w)
  ∧ fields (deref (heap w') l) = fields (deref (heap w) l).
Proof.
  intros Hr. destruct (run_evolves acts w w' Hr). by split.
Qed.

(** X19. The list of discarded items ([getDiscardedItems]) only grows,
    at its end: no run, not even one with [drain] or [destroy], removes
    or reorders an entry. *)
Theorem discard_list_only_grows (w w' : world) (acts : list action) :
  run acts w = Some w' →
  getDiscardedItems w `prefix_of` getDiscardedItems w'.
Proof. intros Hr. by destruct (run_evolves acts w w' Hr). Qed.

(** X16. Once the persistence timer is stopped, by [stopPersistence],
    [drain] or [destroy], or because the interval was 0, nothing starts
    it again: after any run there is no timer, and no periodic save. *)
Theorem periodic_save_never_restarts (w w1 w' : world) (acts : list action) :
  w1 = stopPersistence w ∨ w1 = drain w ∨ w1 = destroy w
  ∨ (w1 = w ∧ persistenceTimer (queue w) = None) →
  run acts w1 = Some w' →
  persistenceTimer (queue w') = None ∧ exec PersistTick w' = None.
Proof.
  intros Hw1 Hr.
  assert (persistenceTimer (queue w1) = None) as Ht.
  { destruct Hw1 as [-> | [-> | [-> | [-> Ht]]]]; done. }
  destruct (run_evolves acts w1 w' Hr).
  split; [by auto|]. simpl. by rewrite ev_timer0.
Qed.

(** X6. No operation removes a handler: once one is registered, one
    is registered after any run ([destroy] removes the listener only),
    and every later [registerWebhook] is rejected without effect. *)
Theorem handler_is_never_removed (w w' : world) (acts : list action) :
  is_Some (handler (queue w)) →
  run acts w = Some w' →
  is_Some (handler (queue w'))
  ∧ ∀ url key m, ∃ e, registerWebhook url key m w' = (w', Rejects e).
Proof.
  intros Hh Hr. destruct (run_evolves acts w w' Hr).
  split; [by auto|]. intros url key m. unfold registerWebhook.
  destruct url, key; try by eexists.
  destruct (negb _); [by eexists|].
  rewrite bool_decide_eq_true_2 by auto. by eexists.
Qed.

(** ** The retry counter is bounded *)

Lemma counters_bounded_write n l h :
  n ≤ MAX_RETRIES → counters_bounded h →
  counters_bounded (alter (write_retries n) l h).
Proof.
  intros Hn Hb x o. destruct (decide (l = x)) as [->|Hne].
  - rewrite list_lookup_alter_eq. destruct (h !! x) as [o'|]; [|done].
    simpl. by intros [= <-].
  - rewrite list_lookup_alter_ne by done. apply Hb.
Qed.

Lemma on_failure_counters item r w :
  counters_bounded (heap w) → counters_bounded (heap (on_failure item r w)).
Proof.
  intros Hb. unfold on_failure. destruct (r <? MAX_RETRIES) eqn:Hr; [|done].
  simpl. apply counters_bounded_write; [|done].
  apply Nat.ltb_lt in Hr. lia.
Qed.

Lemma process_loop_counters d w :
  counters_bounded (heap w) → counters_bounded (heap (process_loop d w)).
Proof.
  revert w. induction d as [|item rest IH]; intros w Hb; [done|].
  cbn [process_loop]. simpl.
  destruct (handler (queue w)) as [h|].
  - destruct (h (calls w) item); [|done]. by apply IH, on_failure_counters.
  - destruct (truthy (webhookUrl (queue w))); [done|]. by apply IH.
Qed.

Lemma processQueue_counters w :
  counters_bounded (heap w) → counters_bounded (heap (processQueue w)).
Proof.
  intros Hb. unfold processQueue. destruct (processing (queue w)); [done|].
  destruct (_ && _); [done|]. by apply process_loop_counters.
Qed.

Lemma exec_counters a w w' :
  exec a w = Some w' → counters_bounded (heap w) → counters_bounded (heap w').
Proof.
  destruct a; simpl.
  - intros [= <-] Hb. unfold addItem.
    destruct (is_full (queue w)); [by destruct item|].
    destruct item as [| | | | |l]; simpl; try done.
    assert (counters_bounded (alter (write_retries 0) l (heap w))) as Hb'.
    { apply counters_bounded_write; [unfold MAX_RETRIES; lia|done]. }
    destruct (itemAddedListener (queue w)) as [h|].
    + destruct (h (calls w) l); simpl; [done|].
      apply processQueue_counters. by rewrite saveData_heap.
    + simpl. apply processQueue_counters. by rewrite saveData_heap.
  - intros [= <-] Hb. unfold getItem.
    destruct (data (queue w)); [done|]. by destruct shift.
  - intros [= <-] Hb. unfold registerHandler.
    destruct cb as [v|f]; [done|]. destruct (truthy _); [done|]. simpl.
    by apply processQueue_counters.
  - intros [= <-] Hb. unfold registerWebhook.
    destruct url, apiKey; try done. destruct (negb _); [done|].
    destruct (bool_decide _); [done|]. simpl. by apply processQueue_counters.
  - intros [= <-] Hb. unfold drain, stopPersistence. simpl.
    by rewrite saveData_heap.
  - by intros [= <-].
  - by intros [= <-].
  - unfold resume. destruct (awaiting w) as [f|]; [|done]. intros [= <-] Hb.
    apply process_loop_counters. destruct ok; [done|].
    by apply on_failure_counters.
  - unfold listener_settles. destruct (listening w !! i); [|done].
    intros [= <-]. by destruct ok.
  - unfold fire. destruct (timeouts w !! i) as [t|]; [|done].
    destruct (due t <=? clock w); [|done]. intros [= <-] Hb.
    by apply processQueue_counters.
  - destruct (persistenceTimer (queue w)); [|done]. intros [= <-].
    by rewrite saveData_heap.
  - by intros [= <-].
Qed.


(** ** Who keeps the capacity bound *)

(** X12. Every operation other than the callback of a retry timer
    keeps the buffer within the capacity: a run without such a callback
    that starts within the capacity ends within it. *)
Theorem only_retry_timers_break_the_capacity (w w' : world) (acts : list action) :
  within_capacity w →
  Forall (λ a, ∀ i, a ≠ Fire i) acts →
  run acts w = Some w' →
  within_capacity w'.
Proof.
  intros Hcap Hacts. revert w Hcap.
  induction Hacts as [|a acts Ha _ IH]; intros w Hcap; simpl.
  { by intros [= <-]. }
  destruct (exec a w) as [v|] eqn:Hx; [|done]. intros Hr.
  apply (IH v); [|done]. clear IH Hr.
  assert (∀ u, maxSize (queue u) = maxSize (queue w) →
               length (data (queue u)) ≤ length (data (queue w)) →
               within_capacity u) as Hshrink.
  { intros u Hm Hl. unfold within_capacity in *. rewrite Hm.
    destruct Hcap as [?|?]; [by left|right; lia]. }
  destruct a; simpl in Hx.
  - injection Hx as <-. by apply addItem_within_capacity.
  - injection Hx as <-. unfold getItem.
    destruct (data (queue w)) eqn:Hd; [done|]. destruct shift; [|done].
    apply Hshrink; simpl; [done|lia].
  - injection Hx as <-. unfold registerHandler.
    destruct cb as [x|f]; [done|]. destruct (truthy _); [done|]. simpl.
    destruct (processQueue_capacity
      (on_queue (set_itemAddedListener (Some f))
         (on_queue (λ q, set_sink (Some f) None (webhookMethod q) None q) w)))
      as [Hm Hl].
    by apply Hshrink.
  - injection Hx as <-. unfold registerWebhook.
    destruct url, apiKey; try done. destruct (negb _); [done|].
    destruct (bool_decide _); [done|]. simpl.
    destruct (processQueue_capacity
      (on_queue (set_sink None (Some s) (toUpperCase method) (Some s0)) w))
      as [Hm Hl].
    by apply Hshrink.
  - injection Hx as <-. apply Hshrink.
    + unfold drain, stopPersistence. simpl. by rewrite saveData_queue.
    + unfold drain, stopPersistence. simpl. rewrite saveData_queue. simpl. lia.
  - injection Hx as <-. by apply Hshrink.
  - injection Hx as <-. apply Hshrink; simpl; [done|lia].
  - unfold resume in Hx. destruct (awaiting w) as [f|]; [|done].
    injection Hx as <-.
    set (w2 := if ok then set_awaiting None w
               else on_failure (f_item f) (f_retries f) (set_awaiting None w)).
    assert (queue w2 = queue w) as Hq.
    { unfold w2. destruct ok; [done|]. by rewrite on_failure_queue. }
    destruct (process_loop_setup (data (queue w2)) w2) as (_ & _ & _ & Hm & _).
    pose proof (process_loop_length (data (queue w2)) w2) as Hl.
    rewrite Hq in *. by apply Hshrink.
  - unfold listener_settles in Hx. destruct (listening w !! i); [|done].
    injection Hx as <-. apply Hshrink; by destruct ok.
  - by destruct (Ha i).
  - destruct (persistenceTimer (queue w)); [|done]. injection Hx as <-.
    apply Hshrink; by rewrite saveData_queue.
  - injection Hx as <-. by apply Hshrink.
Qed.

(** ** Successful deliveries, in order *)

Lemma attempt_order_snoc tr o :
  attempt_order (tr ++ [o])
  = attempt_order tr ++ match o with
                        | HandlerCalled ViaLoop item => [item]
                        | WebhookRequested item _ _ _ _ => [item]
                        | _ => []
                        end.
Proof.
  unfold attempt_order. rewrite omap_app. f_equal.
  destruct o as [[] ?| | | | |]; done.
Qed.

Lemma process_loop_delivers d w :
  sink_ok w → (∀ f, handler (queue w) = Some f → never_throws f) →
  attempt_order (trace (process_loop d w)) ++ data (queue (process_loop d w))
  = attempt_order (trace w) ++ d
  ∧ timeouts (process_loop d w) = timeouts w.
Proof.
  intros Hs Hn. destruct d as [|item rest]; [done|].
  cbn [process_loop]. simpl.
  destruct (handler (queue w)) as [f|] eqn:Hh.
  - rewrite (Hn f eq_refl). simpl. rewrite attempt_order_snoc.
    by rewrite <- app_assoc.
  - destruct Hs as [[? ?]|Hu]; [congruence|]. rewrite Hu. simpl.
    rewrite attempt_order_snoc. unfold webhook_request.
    by rewrite <- app_assoc.
Qed.

Lemma processQueue_delivers w :
  sink_ok w → (∀ f, handler (queue w) = Some f → never_throws f) →
  attempt_order (trace (processQueue w)) ++ data (queue (processQueue w))
  = attempt_order (trace w) ++ data (queue w)
  ∧ timeouts (processQueue w) = timeouts w.
Proof.
  intros Hs Hn. unfold processQueue.
  destruct (processing (queue w)); [done|].
  destruct (_ && _) eqn:Hno; [done|].
  by apply (process_loop_delivers (data (queue w)) (on_queue (set_processing true) w)).
Qed.

Lemma delivering_same_sink w w' :
  engine_ok w' → handler (queue w') = handler (queue w) →
  itemAddedListener (queue w') = itemAddedListener (queue w) →
  maxSize (queue w') = maxSize (queue w) →
  timeouts w' = timeouts w → delivering w → delivering w'.
Proof.
  intros Hok Eh El Em Ht (_ & Hm & Ht0 & Hh & Hl).
  unfold delivering. rewrite Eh, El, Em, Ht. done.
Qed.

Lemma delivering_frame w w' :
  engine_ok w' → settings (queue w') = settings (queue w) →
  timeouts w' = timeouts w → delivering w → delivering w'.
Proof.
  intros Hok Hs Ht.
  destruct (settings_eq _ _ Hs) as (_&_&Eh&_&_&_&El&_&_&_&_&Em&_).
  by apply delivering_same_sink.
Qed.

Lemma succeeding_kicking w a :
  delivering w → succeeding_env w a → kicking_env w a.
Proof.
  intros (_ & _ & _ & _ & Hl) Ha. destruct a; try done. simpl.
  destruct item; try done. intros f Hf. by apply (Hl f).
Qed.

Lemma exec_delivers a w w' :
  succeeding_env w a → delivering w → exec a w = Some w' →
  delivering w'
  ∧ attempt_order (trace w') ++ data (queue w')
    = attempt_order (trace w) ++ data (queue w) ++ submitted [a].
Proof.
  intros Ha Hd Hx.
  pose proof (exec_engine_ok a w w' (succeeding_kicking w a Hd Ha)
                (proj1 Hd) Hx) as Hok.
  destruct Hd as (Hok0 & Hm & Ht & Hh & Hl).
  assert (delivering w) as Hd by done.
  destruct Hok0 as (Hs & Hsf & Hns).
  destruct a; simpl in Hx, Ha; try done.
  - injection Hx as <-. revert Hok. unfold addItem.
    assert (is_full (queue w) = false) as ->.
    { unfold is_full. by rewrite Hm. }
    destruct item as [| | | | |l]; simpl; intros Hok;
      try (split; [done|]; by rewrite app_nil_r).
    set (v := emit (Emitted "itemAdded" (VObj l))
                (on_queue (λ q, set_data (data q ++ [l]) q)
                   (set_heap (alter (write_retries 0) l (heap w)) w))).
    assert (∀ u, queue u = queue v → timeouts u = timeouts w →
                 attempt_order (trace u) = attempt_order (trace w) →
                 engine_ok (processQueue (saveData u)) →
                 delivering (processQueue (saveData u))
                 ∧ attempt_order (trace (processQueue (saveData u)))
                   ++ data (queue (processQueue (saveData u)))
                   = attempt_order (trace w) ++ data (queue w) ++ [l]) as Hkick.
    { intros u Hq Htu Hau Hoku.
      destruct (processQueue_delivers (saveData u)) as [He Hti].
      { unfold sink_ok. rewrite saveData_queue, Hq. done. }
      { rewrite saveData_queue, Hq. done. }
      destruct (saveData_rest u) as (_ & Hts & _).
      split.
      - apply (delivering_frame w); try done.
        + destruct (processQueue_quiet (saveData u)) as [-> _ _ _ _ _ _].
          by rewrite saveData_queue, Hq.
        + by rewrite Hti, Hts.
      - rewrite He, saveData_queue, Hq. simpl. f_equal.
        destruct (saveData_trace u) as [more Hmore].
        unfold saveData in *. destruct (writable (disk u)); [done|].
        simpl. by rewrite attempt_order_snoc, app_nil_r. }
    destruct (itemAddedListener (queue w)) as [f|] eqn:Hf.
    + rewrite (Hl f eq_refl) in *. simpl in *.
      apply Hkick; try done. simpl.
      by rewrite !attempt_order_snoc, !app_nil_r.
    + simpl in *. apply Hkick; try done. simpl.
      by rewrite attempt_order_snoc, app_nil_r.
  - injection Hx as <-. subst shift.
    replace (getItem false w).1 with w
      by (unfold getItem; by destruct (data (queue w))).
    split; [done|]. simpl. by rewrite app_nil_r.
  - injection Hx as <-. split; [by apply (delivering_same_sink w)|].
    simpl. by rewrite app_nil_r.
  - subst ok. unfold resume in Hx. destruct (awaiting w) as [f|]; [|done].
    injection Hx as <-.
    destruct (process_loop_delivers (data (queue w)) (set_awaiting None w))
      as [He Hti]; try done.
    split.
    + apply (delivering_frame w); try done.
      by destruct (process_loop_quiet (data (queue w)) (set_awaiting None w))
        as [-> _ _ _ _ _ _].
    + simpl in *. by rewrite He, app_nil_r.
  - destruct (listener_settles_only_logs i ok w w' Hx) as (Hq & _ & _ & Hti & Htr).
    split.
    + apply (delivering_frame w); try done. by rewrite Hq.
    + rewrite Htr, Hq. simpl. rewrite app_nil_r.
      destruct ok; [by rewrite app_nil_r|]. by rewrite attempt_order_snoc, app_nil_r.
  - unfold fire in Hx. by rewrite Ht in Hx.
  - destruct (persistenceTimer (queue w)); [|done]. injection Hx as <-.
    split.
    + apply (delivering_frame w); try done; [by rewrite saveData_queue|].
      by destruct (saveData_rest w) as (_ & -> & _).
    + rewrite saveData_queue. simpl. rewrite app_nil_r. f_equal.
      unfold saveData. destruct (writable (disk w)); [done|].
      simpl. by rewrite attempt_order_snoc, app_nil_r.
  - injection Hx as <-. split; [by apply (delivering_frame w)|].
    simpl. by rewrite app_nil_r.
Qed.

Lemma submitted_cons a acts : submitted (a :: acts) = submitted [a] ++ submitted acts.
Proof. unfold submitted. by rewrite <- omap_app. Qed.

(** X8. Deliveries in order of submission.  On an unbounded queue with
    a sink none of whose calls throws, without pending retry, in a run
    where every delivery succeeds and nobody takes items out by hand or
    changes the sink: the items the loop has attempted so far, followed
    by the buffer ([toArray]), are the attempts and the buffer of the
    start followed by the submitted objects, in order.  When the loop is
    idle at the end every one of them has been attempted, once.  No retry
    is scheduled. *)
Theorem deliveries_follow_submission_order (w w' : world) (acts : list action) :
  delivering w →
  runs succeeding_env w acts w' →
  attempt_order (trace w') ++ toArray w'
  = attempt_order (trace w) ++ toArray w ++ submitted acts
  ∧ (processing (queue w') = false →
       attempt_order (trace w')
       = attempt_order (trace w) ++ toArray w ++ submitted acts)
  ∧ timeouts w' = [].
Proof.
  intros Hd Hr. unfold toArray.
  assert (delivering w'
          ∧ attempt_order (trace w') ++ data (queue w')
            = attempt_order (trace w) ++ data (queue w) ++ submitted acts)
    as [Hd' Heq].
  { induction Hr as [w|w a v acts w' Ha Hx Hr IH].
    - split; [done|]. simpl. by rewrite app_nil_r.
    - destruct (exec_delivers a w v Ha Hd Hx) as [Hv Hstep].
      destruct (IH Hv) as [Hd' Heq]. split; [done|].
      rewrite Heq, submitted_cons.
      rewrite (app_assoc (attempt_order (trace v))), Hstep.
      by rewrite <- !app_assoc. }
  split; [done|]. destruct Hd' as ((_ & _ & Hns) & _ & Ht & _).
  split; [|done]. intros Hp. rewrite <- Heq, (Hns Hp). by rewrite app_nil_r.
Qed.

(** ** The snapshot is written before the delivery starts *)

Lemma process_loop_takes_head item rest w :
  sink_ok w →
  length (data (queue (process_loop (item :: rest) w))) ≤ length rest.
Proof.
  intros Hs. cbn [process_loop]. simpl.
  destruct (handler (queue w)) as [f|] eqn:Hh.
  - destruct (f (calls w) item); [apply process_loop_length|done].
  - destruct Hs as [[? ?]|Hu]; [congruence|]. by rewrite Hu.
Qed.

(** X13. [addItem] writes the snapshot before it starts the loop.
    When the write succeeds and the listener (if any) returns, the
    snapshot after an accepted [addItem] lists the buffer as it was
    followed by the new object, with counter 0; if the loop was idle and
    a sink is set, the loop has by then taken the head out of the buffer,
    which is shorter than the snapshot by at least one item. *)
Theorem addItem_saves_before_delivering (w : world) (A : loc) :
  writable (disk w) = true → is_full (queue w) = false →
  (∀ f, itemAddedListener (queue w) = Some f → f (calls w) A = ReturnsPromise) →
  let w' := (addItem (VObj A) w).1 in
  files (disk w') !! persistenceFilename (queue w')
  = Some (Snapshot (serializable (alter (write_retries 0) A (heap w))
                      (data (queue w) ++ [A])))
  ∧ (A < length (heap w) →
       last (serializable (alter (write_retries 0) A (heap w))
               (data (queue w) ++ [A]))
       = Some (Obj (fields (deref (heap w) A)) (Some 0)))
  ∧ (sink_ok w → processing (queue w) = false → getLength w' ≤ getLength w).
Proof.
  intros Hw Hfull Hret w'. unfold getLength.
  set (v := emit (Emitted "itemAdded" (VObj A))
              (on_queue (λ q, set_data (data q ++ [A]) q)
                 (set_heap (alter (write_retries 0) A (heap w)) w))).
  assert (∃ u, w' = processQueue (saveData u)
               ∧ queue u = queue v ∧ heap u = heap v ∧ disk u = disk v)
    as (u & Hw' & Hq & Hh & Hd).
  { unfold w', addItem. rewrite Hfull.
    destruct (itemAddedListener (queue w)) as [f|] eqn:Hl.
    - simpl. rewrite Hl. simpl. rewrite (Hret f eq_refl). by eexists.
    - simpl. rewrite Hl. by eexists. }
  destruct (processQueue_quiet (saveData u)) as [Qs Qd _ _ _ _ _].
  destruct (settings_eq _ _ Qs) as (_&_&_&_&_&_&_&_&_&Qf&_).
  rewrite Hw', Qd, Qf, saveData_queue.
  split; [|split].
  - unfold saveData. rewrite Hd. simpl. rewrite Hw. simpl.
    rewrite lookup_insert_eq. by rewrite Hq, Hh.
  - intros HA. unfold serializable. rewrite fmap_app. cbn [fmap list_fmap].
    rewrite last_snoc, deref_alter_eq by done. done.
  - intros Hs Hp.
    assert (queue (saveData u) = queue v) as Hsq by (by rewrite saveData_queue).
    assert (sink_ok (on_queue (set_processing true) (saveData u))) as Hs'.
    { unfold sink_ok. simpl. by rewrite Hsq. }
    unfold processQueue. simpl. rewrite !Hsq. subst v. simpl. rewrite Hp.
    assert (negb (bool_decide (is_Some (handler (queue w))))
            && negb (truthy (webhookUrl (queue w))) = false) as ->.
    { destruct Hs as [Hs|Hs]; [by rewrite bool_decide_eq_true_2|].
      by rewrite Hs, andb_false_r. }
    destruct (data (queue w)) as [|x rest].
    + change ([] ++ [A]) with [A].
      apply (process_loop_takes_head A [] _ Hs').
    + change ((x :: rest) ++ [A]) with (x :: (rest ++ [A])).
      etrans; [apply (process_loop_takes_head _ _ _ Hs')|].
      rewrite length_app. simpl. lia.
Qed.

(** ** Restart after [destroy] and after [drain] *)

(** X14. [destroy] empties the buffer, removes the listener and stops
    the persistence timer; it leaves the disk, the sink, the pending
    retry timers, the delivery in flight and the [processing] flag as
    they are.  So a queue created on the same file after a save and a
    [destroy] gets the saved buffer back (when it fits the capacity),
    while after a [drain] it starts empty. *)
Theorem destroy_keeps_the_snapshot (w wn : world) :
  writable (disk w) = true →
  persistenceFilename (queue wn) = persistenceFilename (queue w) →
  (maxSize (queue wn) = 0
   ∨ Z.of_nat (length (data (queue w))) ≤ maxSize (queue wn))%Z →
  (data (queue (destroy w)) = []
   ∧ itemAddedListener (queue (destroy w)) = None
   ∧ persistenceTimer (queue (destroy w)) = None
   ∧ disk (destroy w) = disk w
   ∧ handler (queue (destroy w)) = handler (queue w)
   ∧ webhookUrl (queue (destroy w)) = webhookUrl (queue w)
   ∧ timeouts (destroy w) = timeouts w
   ∧ awaiting (destroy w) = awaiting w
   ∧ processing (queue (destroy w)) = processing (queue w))
  ∧ (disk wn = disk (destroy (saveData w)) →
       deref (heap (loadData wn)) <$> data (queue (loadData wn))
       = serializable (heap w) (data (queue w)))
  ∧ (disk wn = disk (drain (saveData w)) → data (queue (loadData wn)) = []).
Proof.
  intros Hw Hf Hroom. split; [done|]. split.
  - intros Hd.
    assert (files (disk wn) !! persistenceFilename (queue wn)
            = Some (Snapshot (serializable (heap w) (data (queue w))))) as Hfile.
    { rewrite Hd, Hf. unfold destroy, stopPersistence, saveData. simpl.
      rewrite Hw. simpl. by rewrite lookup_insert_eq. }
    destruct (loadData_snapshot wn _ Hfile) as (_ & _ & -> & _).
    rewrite serializable_normal.
    assert (length (serializable (heap w) (data (queue w)))
            = length (data (queue w))) as Hlen.
    { unfold serializable. by rewrite length_fmap. }
    rewrite Hlen.
    destruct (_ && _)%Z eqn:Hcut; [|by rewrite take_ge by lia].
    apply andb_true_iff in Hcut as [H0%Z.ltb_lt H1%Z.ltb_lt]. lia.
  - intros Hd.
    assert (files (disk wn) !! persistenceFilename (queue wn)
            = Some (Snapshot [])) as Hfile.
    { rewrite Hd, Hf. unfold drain, stopPersistence. simpl.
      unfold saveData at 1. simpl.
      assert (writable (disk (saveData w)) = true) as ->.
      { unfold saveData. by rewrite Hw. }
      simpl. rewrite saveData_queue. by rewrite lookup_insert_eq. }
    destruct (loadData_snapshot wn _ Hfile) as (_ & -> & _). simpl.
    destruct (_ && _)%Z eqn:Hcut; [|done].
    apply andb_true_iff in Hcut as [H0%Z.ltb_lt H1%Z.ltb_lt]. lia.
Qed.

(** ** Retry timers outlive [drain] and [destroy] *)

(** X15. [drain] and [destroy] do not cancel retry timers.  When the
    timer of an item is due after either call, its callback runs: the
    item is alone in the buffer if the loop is busy, and is handed to the
    sink at once if the loop is idle and a sink is set. *)
Theorem retry_timers_survive_drain_and_destroy (w w1 : world) (i : nat)
    (t : timer) :
  timeouts w !! i = Some t → due t ≤ clock w →
  w1 = drain w ∨ w1 = destroy w →
  ∃ w', fire i w1 = Some w'
    ∧ if processing (queue w)
      then data (queue w') = [t_item t]
      else sink_ok w →
           ∃ o more, is_attempt (t_item t) o = true
                     ∧ trace w' = trace w1 ++ o :: more.
Proof.
  intros Hi Hdue Hw1.
  assert (timeouts w1 = timeouts w ∧ clock w1 = clock w
          ∧ data (queue w1) = []
          ∧ processing (queue w1) = processing (queue w)
          ∧ handler (queue w1) = handler (queue w)
          ∧ webhookUrl (queue w1) = webhookUrl (queue w))
    as (Ht & Hc & Hd & Hp & Hh & Hu).
  { destruct Hw1 as [-> | ->]; [|done].
    unfold drain, stopPersistence, saveData. simpl.
    by destruct (writable (disk w)). }
  unfold fire. rewrite Ht, Hi, Hc.
  rewrite (proj2 (Nat.leb_le _ _) Hdue). eexists. split; [done|].
  set (w2 := on_queue (λ q, set_data (t_item t :: data q) q)
               (set_timeouts (delete i (timeouts w)) w1)).
  assert (processing (queue w2) = processing (queue w)) as Hp2 by done.
  unfold processQueue. rewrite Hp2.
  destruct (processing (queue w)); [simpl; by rewrite Hd|].
  intros Hs.
  change (handler (queue (on_queue (set_processing true) w2)))
    with (handler (queue w1)).
  change (webhookUrl (queue (on_queue (set_processing true) w2)))
    with (webhookUrl (queue w1)).
  change (data (queue (on_queue (set_processing true) w2)))
    with (t_item t :: data (queue w1)).
  rewrite Hh, Hu, Hd.
  assert (negb (bool_decide (is_Some (handler (queue w))))
          && negb (truthy (webhookUrl (queue w))) = false) as ->.
  { destruct Hs as [Hs|Hs]; [by rewrite bool_decide_eq_true_2|].
    by rewrite Hs, andb_false_r. }
  destruct (process_loop_head_attempt (t_item t) []
              (on_queue (set_processing true) w2)) as (o & more & Ho & Htr).
  { unfold sink_ok. simpl. by rewrite Hh, Hu. }
  exists o, more. split; [done|]. by rewrite Htr.
Qed.

(** ** Loading a snapshot that is too long *)

(** X2. [loadData] on a snapshot: with a positive [maxSize] the buffer
    holds the first [maxSize] records of the file (all of them when there
    are fewer), otherwise all records.  The [i]-th item of the buffer is
    the [i]-th record with its payload, and its counter read as 0 when
    absent.  The loaded items are fresh objects, pairwise distinct and
    distinct from every object that existed before; those are unchanged,
    and so is the disk. *)
Theorem loadData_keeps_the_head_of_the_snapshot (w : world) (parsed : list obj) :
  files (disk w) !! persistenceFilename (queue w) = Some (Snapshot parsed) →
  let w' := loadData w in
  length (data (queue w'))
  = (if (0 <? maxSize (queue w))%Z
     then Z.to_nat (maxSize (queue w)) `min` length parsed
     else length parsed)
  ∧ (∀ i l, data (queue w') !! i = Some l →
       ∃ r, parsed !! i = Some r
            ∧ deref (heap w') l = Obj (fields r) (Some (or0 (_retries r))))
  ∧ NoDup (data (queue w'))
  ∧ (∀ l, l ∈ data (queue w') → length (heap w) ≤ l < length (heap w'))
  ∧ heap w `prefix_of` heap w'
  ∧ disk w' = disk w.
Proof.
  intros Hfile w'.
  destruct (loadData_snapshot w parsed Hfile) as (Hheap & Hdata & Hderef & _).
  destruct (loadData_rest w) as (_ & _ & Hdisk & _ & _ & _ & _ & _ & _ & Hpre).
  fold w' in Hheap, Hdata, Hderef, Hdisk, Hpre.
  set (n := if ((0 <? maxSize (queue w))
                && (maxSize (queue w) <? Z.of_nat (length parsed)))%Z
            then Z.to_nat (maxSize (queue w)) else length parsed) in *.
  assert (n ≤ length parsed) as Hn.
  { unfold n. destruct (_ && _)%Z eqn:Hcut; [|done].
    apply andb_true_iff in Hcut as [_ H1%Z.ltb_lt]. lia. }
  split; [|split; [|split; [|split; [|by split]]]].
  - rewrite Hdata, length_seq. unfold n.
    destruct (0 <? maxSize (queue w))%Z eqn:H0; simpl; [|done].
    destruct (maxSize (queue w) <? Z.of_nat (length parsed))%Z eqn:H1.
    + apply Z.ltb_lt in H1. lia.
    + apply Z.ltb_ge in H1. lia.
  - intros i l Hi.
    assert ((deref (heap w') <$> data (queue w')) !! i = Some (deref (heap w') l))
      as Hl by (by rewrite list_lookup_fmap, Hi).
    rewrite Hderef in Hl. apply lookup_take_Some in Hl as [Hl _].
    rewrite list_lookup_fmap in Hl.
    destruct (parsed !! i) as [r|]; [|done]. injection Hl as <-. by exists r.
  - rewrite Hdata. apply NoDup_seq.
  - intros l. rewrite Hdata, elem_of_seq, Hheap, length_app, length_fmap. lia.
Qed.

(** ** Registration of the sinks, in full *)


(** X4. Registering a sink starts the loop: when the loop is idle and
    items wait in the buffer (loaded from a snapshot, or submitted while
    there was no sink), a successful [registerHandler] calls the handler
    on the head of the buffer at once, and a successful [registerWebhook]
    with a non-empty URL sends the request for the head at once, with the
    payload as body for POST and without body for GET. *)
Theorem registration_starts_delivery (w : world) (item : loc) (rest : list loc) :
  processing (queue w) = false → data (queue w) = item :: rest →
  (∀ f, (registerHandler (Function f) w).2 = Normal VUndefined →
     ∃ more, trace (registerHandler (Function f) w).1
             = trace w ++ HandlerCalled ViaLoop item :: more)
  ∧ (∀ u k m, (registerWebhook (VStr u) (VStr k) m w).2 = Normal VUndefined →
       u ≠ "" →
       ∃ more, trace (registerWebhook (VStr u) (VStr k) m w).1
               = trace w ++ WebhookRequested item (toUpperCase m) u (Some k)
                   (if String.eqb (toUpperCase m) "POST"
                    then Some (fields (deref (heap w) item)) else None)
                   :: more).
Proof.
  intros Hp Hd. split.
  - intros f. unfold registerHandler.
    destruct (truthy (webhookUrl (queue w))); [done|]. intros _. simpl.
    unfold processQueue. simpl. rewrite Hp, Hd. simpl.
    set (w1 := on_queue (set_processing true) _).
    by apply (process_loop_calls_handler item rest w1 f).
  - intros u k m. unfold registerWebhook.
    destruct (negb _); [done|].
    destruct (bool_decide _); [done|]. intros _ Hu. simpl.
    unfold processQueue. simpl. rewrite Hp, Hd.
    assert (String.eqb u "" = false) as Hne by (by apply String.eqb_neq).
    rewrite Hne. simpl. rewrite Hne. simpl. by exists [].
Qed.

(** * The further scenarios, computed *)

(** [loadData_keeps_the_head_of_the_snapshot]: three records on disk,
    capacity 2. *)
Lemma loadData_keeps_the_head_of_the_snapshot_witness :
  files (disk demo_small_world) !! persistenceFilename (queue demo_small_world)
  = Some (Snapshot demo_records)
  ∧ length (data (queue (loadData demo_small_world))) = 2
  ∧ deref (heap (loadData demo_small_world))
      <$> data (queue (loadData demo_small_world))
    = [Obj [("id", JNum 1)] (Some 0); Obj [("id", JNum 2)] (Some 3)].
Proof.
  assert (files (disk demo_small_world)
            !! persistenceFilename (queue demo_small_world)
          = Some (Snapshot demo_records)) as Hf by (vm_compute; reflexivity).
  pose proof (loadData_keeps_the_head_of_the_snapshot demo_small_world
                demo_records Hf) as H.
  destruct H as (Hlen & _).
  split; [exact Hf|]. split; [exact Hlen|]. vm_compute. reflexivity.
Defined.

(** [registration_starts_delivery]: two objects wait when the handler is
    registered. *)
Lemma registration_starts_delivery_witness :
  data (queue demo_saved) = [0; 1]
  ∧ ∃ more, trace (registerHandler (Function always_returns) demo_saved).1
            = trace demo_saved ++ HandlerCalled ViaLoop 0 :: more.
Proof.
  assert (processing (queue demo_saved) = false) as Hp by (vm_compute; reflexivity).
  assert (data (queue demo_saved) = [0; 1]) as Hd by (vm_compute; reflexivity).
  assert ((registerHandler (Function always_returns) demo_saved).2
          = Normal VUndefined) as Hok by (vm_compute; reflexivity).
  pose proof (registration_starts_delivery demo_saved 0 [1] Hp Hd) as [H _].
  split; [exact Hd|]. exact (H always_returns Hok).
Defined.

(** [sinks_stay_exclusive]: at the end of the life of the first object. *)
Lemma sinks_stay_exclusive_witness :
  run demo_life_acts (demo_world 0) = Some demo_retry_end
  ∧ webhookUrl (queue demo_retry_end) = Some "http://sink"
  ∧ handler (queue demo_retry_end) = None
  ∧ itemAddedListener (queue demo_retry_end) = None.
Proof.
  assert (constructor "uuid" demo_heap demo_fs "jobs" 0 "queues" 0
          = inr (demo_world 0)) as Hc by (vm_compute; reflexivity).
  assert (run demo_life_acts (demo_world 0) = Some demo_retry_end) as Hr
    by (vm_compute; reflexivity).
  pose proof (sinks_stay_exclusive "uuid" demo_heap demo_fs "jobs" 0 "queues" 0
                (demo_world 0) demo_retry_end demo_life_acts Hc Hr) as H.
  destruct H as (_ & _ & H & _).
  assert (is_Some (webhookUrl (queue demo_retry_end))) as Hu.
  { exists "http://sink". vm_compute. reflexivity. }
  destruct (H Hu) as (Hh & Hl & _).
  split; [exact Hr|]. split; [vm_compute; reflexivity|].
  split; [exact Hh|exact Hl].
Defined.

(** [handler_is_never_removed]: after [destroy] and a submission. *)
Lemma handler_is_never_removed_witness :
  is_Some (handler (queue demo_destroyed))
  ∧ ∃ e, registerWebhook (VStr "http://sink") (VStr "key") "POST" demo_destroyed
         = (demo_destroyed, Rejects e).
Proof.
  assert (is_Some (handler (queue (demo_handler_world always_returns)))) as Hh.
  { exists always_returns. vm_compute. reflexivity. }
  assert (run [Destroy; AddItem (VObj 0)] (demo_handler_world always_returns)
          = Some demo_destroyed) as Hr by (vm_compute; reflexivity).
  pose proof (handler_is_never_removed (demo_handler_world always_returns)
                demo_destroyed [Destroy; AddItem (VObj 0)] Hh Hr) as [H1 H2].
  split; [exact H1|]. exact (H2 (VStr "http://sink") (VStr "key") "POST").
Defined.

(** [processing_flag_tracks_the_await]: after the retry timer has fired
    while the second object is in flight. *)
Lemma processing_flag_tracks_the_await_witness :
  run demo_overflow_acts (demo_world 1) = Some demo_after_fire
  ∧ (processing (queue demo_after_fire) = true
     ↔ is_Some (awaiting demo_after_fire))
  ∧ awaiting demo_after_fire = Some (Flight 1 0).
Proof.
  assert (constructor "uuid" demo_heap demo_fs "jobs" 0 "queues" 1
          = inr (demo_world 1)) as Hc by (vm_compute; reflexivity).
  assert (run demo_overflow_acts (demo_world 1) = Some demo_after_fire) as Hr
    by (vm_compute; reflexivity).
  pose proof (processing_flag_tracks_the_await "uuid" demo_heap demo_fs "jobs"
                0 "queues" 1 (demo_world 1) demo_after_fire demo_overflow_acts
                Hc Hr) as [H _].
  split; [exact Hr|]. split; [exact H|]. vm_compute. reflexivity.
Defined.

(** [deliveries_follow_submission_order]: two objects, two successes. *)
Lemma deliveries_follow_submission_order_witness :
  run demo_delivery_acts demo_webhook_world = Some demo_delivered
  ∧ processing (queue demo_delivered) = false
  ∧ attempt_order (trace demo_delivered) = [0; 1].
Proof.
  assert (delivering demo_webhook_world) as Hd.
  { split.
    { split; [right; vm_compute; reflexivity|]. split.
      - intros [f Hf]. vm_compute in Hf. discriminate.
      - intros _. vm_compute. reflexivity. }
    split; [vm_compute; reflexivity|]. split; [vm_compute; reflexivity|].
    split; intros f Hf; vm_compute in Hf; discriminate. }
  assert (run demo_delivery_acts demo_webhook_world = Some demo_delivered) as Hr
    by (vm_compute; reflexivity).
  assert (runs succeeding_env demo_webhook_world demo_delivery_acts
            demo_delivered) as Hrs.
  { apply runs_of_run; [|exact Hr].
    repeat (apply Forall_cons; split; [intros v; simpl; auto|]).
    constructor. }
  assert (processing (queue demo_delivered) = false) as Hp
    by (vm_compute; reflexivity).
  pose proof (deliveries_follow_submission_order demo_webhook_world
                demo_delivered demo_delivery_acts Hd Hrs) as (_ & H & _).
  split; [exact Hr|]. split; [exact Hp|]. exact (H Hp).
Defined.

(** [webhook_requests_are_complete]: the first request of the run. *)
Lemma webhook_requests_are_complete_witness :
  WebhookRequested 0 "POST" "http://sink" (Some "key") (Some [("id", JNum 1)])
    ∈ trace demo_retry_end
  ∧ ("POST" = "GET" ∨ "POST" = "POST") ∧ "http://sink" ≠ ""
  ∧ is_Some (Some "key")
  ∧ (is_Some (Some [("id", JNum 1)]) ↔ "POST" = "POST").
Proof.
  assert (constructor "uuid" demo_heap demo_fs "jobs" 0 "queues" 0
          = inr (demo_world 0)) as Hc by (vm_compute; reflexivity).
  assert (run demo_life_acts (demo_world 0) = Some demo_retry_end) as Hr
    by (vm_compute; reflexivity).
  assert (WebhookRequested 0 "POST" "http://sink" (Some "key")
            (Some [("id", JNum 1)]) ∈ trace demo_retry_end) as Hin.
  { assert (trace demo_retry_end !! 1
            = Some (WebhookRequested 0 "POST" "http://sink" (Some "key")
                      (Some [("id", JNum 1)]))) as Hl by (vm_compute; reflexivity).
    exact (list_elem_of_lookup_2 _ _ _ Hl). }
  split; [exact Hin|].
  exact (webhook_requests_are_complete "uuid" demo_heap demo_fs "jobs" 0
           "queues" 0 (demo_world 0) demo_retry_end demo_life_acts
           0 "POST" "http://sink" (Some "key") (Some [("id", JNum 1)])
           Hc Hr Hin).
Defined.



(** [only_retry_timers_break_the_capacity]: the run up to the moment before
    the timer fires. *)
Lemma only_retry_timers_break_the_capacity_witness :
  within_capacity (demo_world 1)
  ∧ run [demo_webhook; AddItem (VObj 0); Settle false; AddItem (VObj 1);
         AddItem (VObj 2); Advance 100] (demo_world 1) = Some demo_before_fire
  ∧ within_capacity demo_before_fire.
Proof.
  assert (within_capacity (demo_world 1)) as Hcap.
  { right. by vm_compute. }
  assert (run [demo_webhook; AddItem (VObj 0); Settle false; AddItem (VObj 1);
               AddItem (VObj 2); Advance 100] (demo_world 1)
          = Some demo_before_fire) as Hr by (vm_compute; reflexivity).
  assert (Forall (λ a, ∀ i, a ≠ Fire i)
            [demo_webhook; AddItem (VObj 0); Settle false; AddItem (VObj 1);
             AddItem (VObj 2); Advance 100]) as Ha.
  { repeat (apply Forall_cons; split; [intros i; discriminate|]). constructor. }
  split; [exact Hcap|]. split; [exact Hr|].
  exact (only_retry_timers_break_the_capacity (demo_world 1) demo_before_fire
           _ Hcap Ha Hr).
Defined.

(** [addItem_saves_before_delivering]: the first object on an idle webhook
    queue is in the snapshot and no longer in the buffer. *)
Lemma addItem_saves_before_delivering_witness :
  files (disk (addItem (VObj 0) demo_webhook_world).1)
    !! persistenceFilename (queue (addItem (VObj 0) demo_webhook_world).1)
  = Some (Snapshot (serializable
                      (alter (write_retries 0) 0 (heap demo_webhook_world))
                      (data (queue demo_webhook_world) ++ [0])))
  ∧ getLength (addItem (VObj 0) demo_webhook_world).1 = 0.
Proof.
  assert (writable (disk demo_webhook_world) = true) as Hw
    by (vm_compute; reflexivity).
  assert (is_full (queue demo_webhook_world) = false) as Hfull
    by (vm_compute; reflexivity).
  assert (∀ f, itemAddedListener (queue demo_webhook_world) = Some f →
               f (calls demo_webhook_world) 0 = ReturnsPromise) as Hret.
  { intros f Hf. vm_compute in Hf. discriminate. }
  pose proof (addItem_saves_before_delivering demo_webhook_world 0
                Hw Hfull Hret) as (H & _).
  split; [exact H|]. vm_compute. reflexivity.
Defined.

(** [destroy_keeps_the_snapshot]: two saved objects, seen again after
    [destroy], gone after [drain]. *)
Lemma destroy_keeps_the_snapshot_witness :
  deref (heap (loadData demo_restart_destroyed))
    <$> data (queue (loadData demo_restart_destroyed))
  = serializable (heap demo_saved) (data (queue demo_saved))
  ∧ data (queue (loadData demo_restart_drained)) = [].
Proof.
  assert (writable (disk demo_saved) = true) as Hw by (vm_compute; reflexivity).
  assert (persistenceFilename (queue demo_restart_destroyed)
          = persistenceFilename (queue demo_saved)) as Hf
    by (vm_compute; reflexivity).
  assert (persistenceFilename (queue demo_restart_drained)
          = persistenceFilename (queue demo_saved)) as Hf'
    by (vm_compute; reflexivity).
  assert (maxSize (queue demo_restart_destroyed) = 0%Z) as Hm
    by (vm_compute; reflexivity).
  assert (maxSize (queue demo_restart_drained) = 0%Z) as Hm'
    by (vm_compute; reflexivity).
  assert (disk demo_restart_destroyed = disk (destroy (saveData demo_saved)))
    as Hd by (vm_compute; reflexivity).
  assert (disk demo_restart_drained = disk (drain (saveData demo_saved)))
    as Hd' by (vm_compute; reflexivity).
  pose proof (destroy_keeps_the_snapshot demo_saved demo_restart_destroyed
                Hw Hf (or_introl Hm)) as (_ & H1 & _).
  pose proof (destroy_keeps_the_snapshot demo_saved demo_restart_drained
                Hw Hf' (or_introl Hm')) as (_ & _ & H2).
  split; [exact (H1 Hd)|exact (H2 Hd')].
Defined.

(** [retry_timers_survive_drain_and_destroy]: the queue is drained while
    the first object waits for its retry. *)
Lemma retry_timers_survive_drain_and_destroy_witness :
  timeouts demo_before_fire !! 0 = Some (Timer 100 0)
  ∧ ∃ w', fire 0 (drain demo_before_fire) = Some w'
          ∧ if processing (queue demo_before_fire)
            then data (queue w') = [t_item (Timer 100 0)]
            else sink_ok demo_before_fire →
                 ∃ o more, is_attempt (t_item (Timer 100 0)) o = true
                           ∧ trace w' = trace (drain demo_before_fire) ++ o :: more.
Proof.
  assert (timeouts demo_before_fire !! 0 = Some (Timer 100 0)) as Hi
    by (vm_compute; reflexivity).
  assert (due (Timer 100 0) ≤ clock demo_before_fire) as Hdue.
  { assert (clock demo_before_fire = 100) as -> by (vm_compute; reflexivity).
    simpl. lia. }
  split; [exact Hi|].
  exact (retry_timers_survive_drain_and_destroy demo_before_fire
           (drain demo_before_fire) 0 (Timer 100 0) Hi Hdue (or_introl eq_refl)).
Defined.

(** [periodic_save_never_restarts]: a queue with interval 1000, stopped. *)
Lemma periodic_save_never_restarts_witness :
  persistenceTimer (queue demo_periodic) = Some 1000%Z
  ∧ run demo_stopped_acts (stopPersistence demo_periodic) = Some demo_stopped
  ∧ persistenceTimer (queue demo_stopped) = None
  ∧ exec PersistTick demo_stopped = None.
Proof.
  assert (run demo_stopped_acts (stopPersistence demo_periodic)
          = Some demo_stopped) as Hr by (vm_compute; reflexivity).
  split; [vm_compute; reflexivity|]. split; [exact Hr|].
  exact (periodic_save_never_restarts demo_periodic
           (stopPersistence demo_periodic) demo_stopped demo_stopped_acts
           (or_introl eq_refl) Hr).
Defined.

(** [identity_and_foreign_files_untouched]: over the life of the first
    object. *)
Lemma identity_and_foreign_files_untouched_witness :
  run demo_life_acts (demo_world 0) = Some demo_retry_end
  ∧ name (queue demo_retry_end) = "jobs"
  ∧ ∀ p, p ≠ persistenceFilename (queue (demo_world 0)) →
      files (disk demo_retry_end) !! p = files (disk (demo_world 0)) !! p.
Proof.
  assert (run demo_life_acts (demo_world 0) = Some demo_retry_end) as Hr
    by (vm_compute; reflexivity).
  pose proof (identity_and_foreign_files_untouched (demo_world 0) demo_retry_end
                demo_life_acts Hr) as ((Hn & _) & _ & Hf).
  split; [exact Hr|]. split; [|exact Hf].
  rewrite Hn. vm_compute. reflexivity.
Defined.

(** [payload_is_never_modified]: over the life of the first object. *)
Lemma payload_is_never_modified_witness :
  run demo_life_acts (demo_world 0) = Some demo_retry_end
  ∧ length (heap demo_retry_end) = length (heap (demo_world 0))
  ∧ fields (deref (heap demo_retry_end) 0)
    = fields (deref (heap (demo_world 0)) 0).
Proof.
  assert (run demo_life_acts (demo_world 0) = Some demo_retry_end) as Hr
    by (vm_compute; reflexivity).
  split; [exact Hr|].
  exact (payload_is_never_modified (demo_world 0) demo_retry_end demo_life_acts
           0 Hr).
Defined.

(** [discard_list_only_grows]: the discarded object is still listed after
    [drain] and [destroy]. *)
Lemma discard_list_only_grows_witness :
  run demo_discard_acts (demo_world 2) = Some demo_discarded
  ∧ getDiscardedItems demo_discarded = [VObj 2]
  ∧ getDiscardedItems (demo_world 2) `prefix_of` getDiscardedItems demo_discarded.
Proof.
  assert (run demo_discard_acts (demo_world 2) = Some demo_discarded) as Hr
    by (vm_compute; reflexivity).
  split; [exact Hr|]. split; [vm_compute; reflexivity|].
  exact (discard_list_only_grows (demo_world 2) demo_discarded
           demo_discard_acts Hr).
Defined.
